(** * Connected Component Finder (CCF) on Spark RDDs

    A shallow embedding of [ccf-project-pyspark.ipynb]: the two CCF-Iterate
    jobs ([CFF_iterate], [CFF_iterate_sorting]), the CCF-Dedup step they end
    with, the driver loop [process], the data preparation [clean_data] and
    the cells that read the result ([n_components], [largest_component],
    [cc]).

    An RDD is modelled by the list of its elements.  Spark leaves the order
    of the elements of an RDD unspecified; the model fixes one order, and
    the theorems below only speak about membership, minima, sorted values
    and counts, none of which depends on it.  Node identifiers are Python
    integers, modelled by [Z]: the jobs receive pairs of identifiers that
    are already parsed, and [int] is the identity on them; [clean_data]
    is modelled on the strings it reads, on its own.  The [print] calls of
    the driver are not modelled; the counter [i] they show is returned
    with the result. *)

From Stdlib Require Import Ascii String.
From Stdlib Require Import ZArith List Bool Lia Arith.
From Stdlib Require Import Permutation Sorted Mergesort Orders Relations.
Import ListNotations.

Local Open Scope Z_scope.

(** ** Python values and exceptions *)

(** A node identifier is an integer; an edge is a pair of them. *)
Definition edge := (Z * Z)%type.

Inductive exn := ValueError | IndexError.

(** Outcome of running a piece of the notebook: a value, a Python
    exception, or (for the [while] loop only) exhaustion of the fuel that
    bounds the number of loop iterations the model is allowed to unfold. *)
Inductive outcome (A : Type) : Type :=
| Returns (a : A)
| Raises (e : exn)
| OutOfFuel.

Arguments Returns {A} a.
Arguments Raises {A} e.
Arguments OutOfFuel {A}.

Definition bind {A B} (c : outcome A) (k : A -> outcome B) : outcome B :=
  match c with
  | Returns a => k a
  | Raises e => Raises e
  | OutOfFuel => OutOfFuel
  end.

Notation "x <- c ;; k" := (bind c (fun x => k))
  (at level 61, c at next level, right associativity).
Notation "' p <- c ;; k" := (bind c (fun p => k))
  (at level 61, p pattern, c at next level, right associativity).

(** [int(x)] on a value that already is an integer. *)
Definition int (z : Z) : Z := z.

(** [min(l)]: raises [ValueError] on the empty list. *)
Definition py_min (l : list Z) : outcome Z :=
  match l with
  | [] => Raises ValueError
  | x :: xs => Returns (fold_left Z.min xs x)
  end.

(** [l[0]]: raises [IndexError] on the empty list. *)
Definition py_first (l : list Z) : outcome Z :=
  match l with
  | [] => Raises IndexError
  | x :: _ => Returns x
  end.

(** [l[1:]]: slicing never raises. *)
Definition py_rest (l : list Z) : list Z := tl l.

(** [sorted(l)] on integers: Python's sort is a merge sort. *)
Module ZOrder <: TotalLeBool.
Definition t := Z.
Definition leb := Z.leb.
Lemma leb_total : forall x y, leb x y = true \/ leb y x = true.
Proof. intros x y; unfold leb; rewrite !Z.leb_le; lia. Qed.
End ZOrder.

Module ZSort := Sort ZOrder.

Definition sorted (l : list Z) : list Z := ZSort.sort l.

(** ** RDD operations *)

Definition edge_eq_dec : forall x y : edge, {x = y} + {x <> y}.
Proof. decide equality; apply Z.eq_dec. Defined.

Section RDD.
Context {K V : Type} (K_eq_dec : forall x y : K, {x = y} + {x <> y}).

Definition values_of (k : K) (l : list (K * V)) : list V :=
  map snd (filter (fun kv => if K_eq_dec (fst kv) k then true else false) l).

(** [rdd.groupByKey()]: one record per distinct key, holding every value
    the key is paired with (with multiplicity). *)
Definition groupByKey (l : list (K * V)) : list (K * list V) :=
  map (fun k => (k, values_of k l)) (nodup K_eq_dec (map fst l)).
End RDD.

Definition mapValues {K V W} (f : V -> W) (l : list (K * V)) : list (K * W) :=
  map (fun kv => (fst kv, f (snd kv))) l.

(** [list(it)] on the iterable of a group. *)
Definition py_list {A} (l : list A) : list A := l.

(** Partitioning and caching do not change the content of an RDD. *)
Definition partitionBy {A} (n : nat) (l : list A) : list A := l.
Definition cache {A} (l : list A) : list A := l.

(** [rdd.map(f)] for an [f] that may raise: the job fails with the first
    exception. *)
Fixpoint map_raising {A B} (f : A -> outcome B) (l : list A) : outcome (list B) :=
  match l with
  | [] => Returns []
  | x :: t => y <- f x ;; ys <- map_raising f t ;; Returns (y :: ys)
  end.

(** [rdd.sum()] of lengths. *)
Definition rdd_sum (l : list nat) : nat := list_sum l.

(** ** The two CCF-Iterate jobs *)

(** A - Naive CCF iterate. *)
Definition CFF_iterate (rdd : list edge) : outcome (list edge * nat) :=
  let rdd_inv := map (fun x => (snd x, fst x)) rdd in
  let graph := rdd ++ rdd_inv in
  let graph := cache (partitionBy 100 (mapValues py_list (groupByKey Z.eq_dec graph))) in
  let graph := map (fun x => (int (fst x), map int (snd x))) graph in
  graph <- map_raising (fun x => m <- py_min (snd x) ;; Returns (fst x, snd x, m)) graph ;;
  let graph := filter (fun '(x0, _, x2) => x0 >? x2) graph in
  let graph := map (fun '(x0, x1, x2) =>
                      (x0, filter (fun val => negb (val =? x2)) x1, x2)) graph in
  let new_pairs := rdd_sum (map (fun '(_, x1, _) => length x1) graph) in
  let emit_1 := map (fun '(x0, _, x2) => (x0, x2)) graph in
  let emit_2 := flat_map (fun '(_, x1, x2) => map (fun val => (val, x2)) x1) graph in
  let emit_tot := emit_1 ++ emit_2 in
  let new := map (fun x => (x, @nil unit)) emit_tot in
  let new := mapValues py_list (groupByKey edge_eq_dec new) in
  let new := map (fun x => (fst (fst x), snd (fst x))) new in
  Returns (new, new_pairs).

(** B - CCF iterate with secondary sorting. *)
Definition CFF_iterate_sorting (rdd : list edge) : outcome (list edge * nat) :=
  let rdd_inv := map (fun x => (snd x, fst x)) rdd in
  let graph := rdd ++ rdd_inv in
  let graph := cache (partitionBy 100 (mapValues py_list (groupByKey Z.eq_dec graph))) in
  let graph := map (fun x => (int (fst x), sorted (map int (snd x)))) graph in
  graph <- map_raising (fun x => m <- py_first (snd x) ;; Returns (fst x, snd x, m)) graph ;;
  let graph := filter (fun '(x0, _, x2) => x0 >? x2) graph in
  let graph := map (fun '(x0, x1, x2) => (x0, py_rest x1, x2)) graph in
  let new_pairs := rdd_sum (map (fun '(_, x1, _) => length x1) graph) in
  let emit_1 := map (fun '(x0, _, x2) => (x0, x2)) graph in
  let emit_2 := flat_map (fun '(_, x1, x2) => map (fun val => (val, x2)) x1) graph in
  let emit_tot := emit_1 ++ emit_2 in
  let new := map (fun x => (x, @nil unit)) emit_tot in
  let new := mapValues py_list (groupByKey edge_eq_dec new) in
  let new := map (fun x => (fst (fst x), snd (fst x))) new in
  Returns (new, new_pairs).

(** ** Main loop of the algorithm *)

(** The call [CFF_iterate_sorting(rdd)] or [CFF_iterate(rdd)] selected by
    [if sorting:]. *)
Definition iterate (sorting : bool) (rdd : list edge) : outcome (list edge * nat) :=
  if sorting then CFF_iterate_sorting rdd else CFF_iterate rdd.

(** The [while new_pairs > 0] loop, from the state [(rdd, i, new_pairs)].
    The result pairs the returned RDD with the final value of the
    iteration counter [i], which the notebook prints.  The flag stands for
    the truth value of the argument [sorting], whose default [None] is
    false. *)
Fixpoint process_loop (fuel : nat) (sorting : bool)
         (rdd : list edge) (i : nat) (new_pairs : nat) : outcome (list edge * nat) :=
  if (0 <? new_pairs)%nat then
    match fuel with
    | O => OutOfFuel
    | S fuel' =>
        '(rdd', new_pairs') <- iterate sorting rdd ;;
        process_loop fuel' sorting rdd' (S i) new_pairs'
    end
  else Returns (rdd, i).

Definition process (fuel : nat) (rdd : list edge) (sorting : bool) : outcome (list edge * nat) :=
  process_loop fuel sorting rdd 0%nat 1%nat.

(** ** Reading an edge set as a component assignment *)

(** The representative of [n] in an edge set: the smallest value paired
    with key [n], and [n] itself when [n] has no entry. *)
Definition representative (rdd : list edge) (n : Z) : Z :=
  match values_of Z.eq_dec n rdd with
  | [] => n
  | v :: vs => fold_left Z.min vs v
  end.

(** The toy graph of the notebook. *)
Definition scenario : list edge := [(1,2); (2,3); (2,4); (4,5); (6,7); (7,8)].

(** ** Auxiliary notions used to state what the jobs compute *)

(** The first three lines of both jobs: every pair is emitted in both
    directions and the pairs are grouped by key, which gives one adjacency
    record per key. *)
Definition adjacency (rdd : list edge) : list (Z * list Z) :=
  let rdd_inv := map (fun x => (snd x, fst x)) rdd in
  let graph := rdd ++ rdd_inv in
  cache (partitionBy 100 (mapValues py_list (groupByKey Z.eq_dec graph))).

(** The last three lines of both jobs (CCF-Dedup): every pair is keyed by
    itself, the pairs are grouped, and the keys are kept. *)
Definition dedup (emit_tot : list edge) : list edge :=
  let new := map (fun x => (x, @nil unit)) emit_tot in
  let new := mapValues py_list (groupByKey edge_eq_dec new) in
  map (fun x => (fst (fst x), snd (fst x))) new.

(** The values grouped under key [k] by [adjacency]. *)
Definition neighbours (G : list edge) (k : Z) : list Z :=
  values_of Z.eq_dec k (G ++ map (fun x => (snd x, fst x)) G).

(** The smallest identifier among [k] and its neighbours. *)
Definition local_min (G : list edge) (k : Z) : Z :=
  fold_left Z.min (neighbours G k) k.

(** The minimum of a list, [0] on the empty list (where Python raises). *)
Definition lmin (l : list Z) : Z :=
  match l with
  | [] => 0
  | x :: xs => fold_left Z.min xs x
  end.

Definition nodes (G : list edge) : list Z := map fst G ++ map snd G.

Definition result_of {A} (d : A) (o : outcome A) : A :=
  match o with
  | Returns a => a
  | _ => d
  end.

(** The pair each job returns (both jobs always return, see
    [CFF_iterate_batch] and [CFF_iterate_sorting_sorting]). *)
Definition batch_step (G : list edge) : list edge * nat :=
  result_of ([], 0%nat) (CFF_iterate G).
Definition sorting_step (G : list edge) : list edge * nat :=
  result_of ([], 0%nat) (CFF_iterate_sorting G).

(** Two edge lists holding the same pairs. *)
Definition same_edges (G H : list edge) : Prop := forall e, In e G <-> In e H.

(** ** Further notions used in the statements and proofs *)

(** The records [(x0, x1, x2)] the emission stage consumes, and what it
    makes of them. *)
Definition finish (graph : list (Z * list Z * Z)) : list edge * nat :=
  (dedup (map (fun '(x0, _, x2) => (x0, x2)) graph ++
          flat_map (fun '(_, x1, x2) => map (fun val => (val, x2)) x1) graph),
   rdd_sum (map (fun '(_, x1, _) => length x1) graph)).

Definition batch_graph (G : list edge) : list (Z * list Z * Z) :=
  map (fun '(x0, x1, x2) => (x0, filter (fun val => negb (val =? x2)) x1, x2))
    (filter (fun '(x0, _, x2) => x0 >? x2)
       (map (fun x => (fst x, snd x, lmin (snd x))) (adjacency G))).

Definition sorting_graph (G : list edge) : list (Z * list Z * Z) :=
  map (fun '(x0, x1, x2) => (x0, py_rest x1, x2))
    (filter (fun '(x0, _, x2) => x0 >? x2)
       (map (fun x => (fst x, sorted (snd x), lmin (snd x))) (adjacency G))).

(** Every key that has a smaller neighbour has exactly that neighbour. *)
Definition settled (G : list edge) : Prop :=
  forall k v, local_min G k < k -> In v (neighbours G k) -> v = local_min G k.

(** [run step G i G' j]: started with edge set [G] and counter [i], the loop
    body is executed until an iteration counts no new pair; the loop
    then exits with edge set [G'] and counter [j]. *)
Inductive run (step : list edge -> list edge * nat) :
  list edge -> nat -> list edge -> nat -> Prop :=
| run_stop : forall G i,
    snd (step G) = 0%nat -> run step G i (fst (step G)) (S i)
| run_next : forall G i G' j,
    snd (step G) <> 0%nat -> run step (fst (step G)) (S i) G' j -> run step G i G' j.

Definition potential (L : list Z) (G : list edge) : Z :=
  fold_right Z.add 0 (map (local_min G) L).

Definition step_of (sorting_flag : bool) : list edge -> list edge * nat :=
  if sorting_flag then sorting_step else batch_step.

(** The edge set after [i] iterations of the selected job. *)
Fixpoint edges_after (sorting_flag : bool) (E : list edge) (i : nat) : outcome (list edge) :=
  match i with
  | O => Returns E
  | S i' =>
      G <- edges_after sorting_flag E i' ;;
      '(G', _) <- iterate sorting_flag G ;;
      Returns G'
  end.

Definition covers (Gs Gb : list edge) : Prop :=
  (forall k v, In v (neighbours Gb k) -> In v (neighbours Gs k)) /\
  (forall k v, In v (neighbours Gs k) -> v <> k -> In v (neighbours Gb k)).

(** What one adjacency record adds to [new_pairs] in [CFF_iterate]. *)
Definition contribution (x : Z * list Z) : nat :=
  let m := lmin (snd x) in
  if fst x >? m then length (filter (fun val => negb (val =? m)) (snd x)) else 0%nat.

(** What one adjacency record adds to [new_pairs] in [CFF_iterate_sorting]. *)
Definition contribution_sorting (x : Z * list Z) : nat :=
  if fst x >? lmin (snd x) then length (py_rest (sorted (snd x))) else 0%nat.

(** What the specification says a record adds: one more, for the pair
    that links the key to the minimum. *)
Definition contribution_spec (x : Z * list Z) : nat :=
  let m := lmin (snd x) in
  if fst x >? m then (length (filter (fun val => negb (val =? m)%Z) (snd x)) + 1)%nat
  else 0%nat.

(** ** Connected components of an edge list *)

(** Two nodes are connected when a chain of edges, followed in either
    direction, leads from one to the other (every node is connected to
    itself). *)
Definition connected (G : list edge) : Z -> Z -> Prop :=
  clos_refl_sym_trans Z (fun a b => In (a, b) G).

(** The total distance of the nodes of [L] above [lo]. *)
Definition slack (lo : Z) (L : list Z) : Z :=
  fold_right (fun x acc => (x - lo) + acc) 0 L.

(** ** The cells that read the result *)

(** [rdd.distinct()], [rdd.count()]. *)
Definition rdd_distinct (l : list Z) : list Z := nodup Z.eq_dec l.
Definition rdd_count {A} (l : list A) : nat := length l.

(** [rdd.groupBy(f)]: every element is keyed by [f] and the pairs are
    grouped. *)
Definition groupBy {A K} (K_eq_dec : forall x y : K, {x = y} + {x <> y})
    (f : A -> K) (l : list A) : list (K * list A) :=
  groupByKey K_eq_dec (map (fun x => (f x, x)) l).

(** [rdd.max()]: raises [ValueError] on an empty RDD. *)
Definition rdd_max (l : list nat) : outcome nat :=
  match l with
  | [] => Raises ValueError
  | x :: xs => Returns (fold_left Nat.max xs x)
  end.

(** [rdd.reduceByKey(f)]: the values of every key are merged with [f]. *)
Definition reduceByKey {K V} (K_eq_dec : forall x y : K, {x = y} + {x <> y})
    (f : V -> V -> V) (l : list (K * V)) : list (K * V) :=
  flat_map (fun kv => match snd kv with
                      | [] => []
                      | v :: vs => [(fst kv, fold_left f vs v)]
                      end)
           (groupByKey K_eq_dec l).

(** The number of components printed after [process(graph)]. *)
Definition n_components (output : list edge) : nat :=
  rdd_count (rdd_distinct (map (fun x => snd x) output)).

(** The size of the largest component as the cell of the naive version
    computes it. *)
Definition largest_component (output : list edge) : outcome nat :=
  m <- rdd_max (map (fun x => length (snd x))
                    (groupBy Z.eq_dec (fun x => snd x) output)) ;;
  Returns (m + 1)%nat.

(** The same as the cell of the version with secondary sorting computes
    it: without the [+ 1]. *)
Definition largest_component_sorting (output : list edge) : outcome nat :=
  rdd_max (map (fun x => length (snd x))
               (groupBy Z.eq_dec (fun x => snd x) output)).

(** The size distribution of the components: [cc], then the lists [X] of
    sizes and [Y] of counts. *)
Definition cc (output : list edge) : list (nat * nat) :=
  let cc := mapValues py_list
              (groupByKey Z.eq_dec (map (fun x => (snd x, fst x)) output)) in
  let cc := map (fun x => (length (snd x), 1%nat)) cc in
  reduceByKey Nat.eq_dec (fun x y => (x + y)%nat) cc.

Definition X (output : list edge) : list nat := map (fun x => fst x) (cc output).
Definition Y (output : list edge) : list nat := map (fun x => snd x) (cc output).

(** ** Data preparation *)

(** [c in x] for a one-character string [c]. *)
Fixpoint contains_char (c : ascii) (x : string) : bool :=
  match x with
  | EmptyString => false
  | String d x' => if Ascii.eqb d c then true else contains_char c x'
  end.

(** [x.split(sep)] for a one-character separator: the fields between the
    occurrences of [sep], empty fields included; never an empty list. *)
Fixpoint split (sep : ascii) (x : string) : list string :=
  match x with
  | EmptyString => [EmptyString]
  | String c x' =>
      if Ascii.eqb c sep then EmptyString :: split sep x'
      else match split sep x' with
           | f :: fs => String c f :: fs
           | [] => [String c EmptyString]
           end
  end.

(** [l[n]]: raises [IndexError] when [l] has no element at index [n]. *)
Definition py_index {A} (l : list A) (n : nat) : outcome A :=
  match nth_error l n with
  | Some a => Returns a
  | None => Raises IndexError
  end.

Definition hash : ascii := "#"%char.
Definition tab : ascii := "009"%char.

(** [clean_data(raw_data)], on the lines of the file.  Spark evaluates the
    RDD lazily; the outcome is the one of an action that reads all of it. *)
Definition clean_data (raw_data : list string) : outcome (list (string * string)) :=
  let data := filter (fun x => negb (contains_char hash x)) raw_data in
  let data := map (fun x => split tab x) data in
  map_raising (fun x => x0 <- py_index x 0 ;; x1 <- py_index x 1 ;; Returns (x0, x1)) data.

(** A line of the file: two fields separated by a tab, possibly followed
    by a tab and further text. *)
Definition line_of (entry : string * string * option string) : string :=
  let '(a, b, more) := entry in
  match more with
  | None => (a ++ String tab b)%string
  | Some e => (a ++ String tab (b ++ String tab e))%string
  end.

(** * Properties *)

(** ** Minima of lists *)

Lemma fold_min_le_init : forall l x, fold_left Z.min l x <= x.
Proof.
  induction l as [|y l IH]; intros x; simpl; [lia|].
  specialize (IH (Z.min x y)); lia.
Qed.

Lemma fold_min_le_in : forall l x y, In y l -> fold_left Z.min l x <= y.
Proof.
  induction l as [|z l IH]; intros x y Hy; simpl in *; [tauto|].
  destruct Hy as [->|Hy].
  - pose proof (fold_min_le_init l (Z.min x y)); lia.
  - now apply IH.
Qed.

Lemma fold_min_cases : forall l x,
  fold_left Z.min l x = x \/ In (fold_left Z.min l x) l.
Proof.
  induction l as [|y l IH]; intros x; simpl; [now left|].
  destruct (IH (Z.min x y)) as [E|HI]; [|now right; right].
  rewrite E. destruct (Z.min_spec x y) as [[_ ->]|[_ ->]]; auto.
Qed.

Lemma fold_min_lower : forall l x b,
  b <= x -> (forall y, In y l -> b <= y) -> b <= fold_left Z.min l x.
Proof.
  intros l x b Hx Hl.
  destruct (fold_min_cases l x) as [->|HI]; auto.
Qed.

Lemma lmin_in : forall l, l <> [] -> In (lmin l) l.
Proof.
  intros [|x xs] H; [congruence|]. simpl.
  destruct (fold_min_cases xs x) as [->|HI]; auto.
Qed.

Lemma lmin_le : forall l y, In y l -> lmin l <= y.
Proof.
  intros [|x xs] y H; [inversion H|]. destruct H as [->|H]; simpl.
  - apply fold_min_le_init.
  - now apply fold_min_le_in.
Qed.

Lemma lmin_unique : forall l m,
  In m l -> (forall y, In y l -> m <= y) -> lmin l = m.
Proof.
  intros l m Hm Hle.
  assert (Hne : l <> []) by (intros ->; inversion Hm).
  pose proof (lmin_in l Hne). pose proof (lmin_le l m Hm).
  specialize (Hle _ H). lia.
Qed.

(** ** Grouping *)

Lemma In_values_of : forall {K V} (dec : forall x y : K, {x = y} + {x <> y})
    (k : K) (v : V) l,
  In v (values_of dec k l) <-> In (k, v) l.
Proof.
  intros K V dec k v l. unfold values_of. rewrite in_map_iff. split.
  - intros [[k' v'] [<- H]]. apply filter_In in H as [H E]. simpl in *.
    destruct (dec k' k); [subst; auto | discriminate].
  - intros H. exists (k, v). split; auto. apply filter_In. split; auto.
    simpl. destruct (dec k k); congruence.
Qed.

Lemma In_neighbours : forall G k v,
  In v (neighbours G k) <-> In (k, v) G \/ In (v, k) G.
Proof.
  intros G k v. unfold neighbours. rewrite In_values_of, in_app_iff, in_map_iff.
  split.
  - intros [H|[[a b] [E H]]]; auto. simpl in E. inversion E; subst; auto.
  - intros [H|H]; auto. right. now exists (v, k).
Qed.

Lemma neighbours_app : forall G k,
  neighbours G k =
  values_of Z.eq_dec k G ++ values_of Z.eq_dec k (map (fun x => (snd x, fst x)) G).
Proof. intros. unfold neighbours, values_of. now rewrite filter_app, map_app. Qed.

Lemma neighbours_sym : forall G k v, In v (neighbours G k) -> In k (neighbours G v).
Proof. intros G k v. rewrite !In_neighbours. tauto. Qed.

Lemma neighbours_in_nodes : forall G k v,
  In v (neighbours G k) -> In k (nodes G) /\ In v (nodes G).
Proof.
  intros G k v H. apply In_neighbours in H. unfold nodes.
  rewrite !in_app_iff.
  destruct H as [H|H].
  - split; [left; change k with (fst (k, v)) | right; change v with (snd (k, v))];
      now apply in_map.
  - split; [right; change k with (snd (v, k)) | left; change v with (fst (v, k))];
      now apply in_map.
Qed.

Lemma local_min_le : forall G k, local_min G k <= k.
Proof. intros; apply fold_min_le_init. Qed.

Lemma local_min_le_neighbour : forall G k v,
  In v (neighbours G k) -> local_min G k <= v.
Proof. intros; now apply fold_min_le_in. Qed.

Lemma local_min_cases : forall G k,
  local_min G k = k \/ In (local_min G k) (neighbours G k).
Proof. intros; apply fold_min_cases. Qed.

Lemma local_min_lt_in : forall G k,
  local_min G k < k -> In (local_min G k) (neighbours G k).
Proof. intros G k H. destruct (local_min_cases G k); [lia | auto]. Qed.

Lemma local_min_lmin : forall G k,
  neighbours G k <> [] ->
  (lmin (neighbours G k) < k <-> local_min G k < k) /\
  (local_min G k < k -> lmin (neighbours G k) = local_min G k).
Proof.
  intros G k Hne.
  pose proof (lmin_in _ Hne) as Hin.
  pose proof (local_min_le_neighbour G k _ Hin) as H1.
  split; [split|]; intros H.
  - lia.
  - pose proof (lmin_le _ _ (local_min_lt_in G k H)). lia.
  - pose proof (lmin_le _ _ (local_min_lt_in G k H)). lia.
Qed.

(** ** What the stages compute *)

Lemma map_raising_returns : forall {A B} (f : A -> outcome B) (g : A -> B) l,
  (forall x, In x l -> f x = Returns (g x)) ->
  map_raising f l = Returns (map g l).
Proof.
  induction l as [|x l IH]; intros H; simpl; [reflexivity|].
  rewrite (H x) by now left. simpl.
  rewrite IH by (intros y Hy; apply H; now right). reflexivity.
Qed.

Lemma dedup_nodup : forall l, dedup l = nodup edge_eq_dec l.
Proof.
  intros l. unfold dedup, mapValues, groupByKey, py_list.
  rewrite !map_map. simpl.
  rewrite (map_ext _ (fun x => x)) by (now intros [a b]).
  rewrite !map_id. reflexivity.
Qed.

Lemma In_dedup : forall l e, In e (dedup l) <-> In e l.
Proof. intros; rewrite dedup_nodup; apply nodup_In. Qed.

Lemma NoDup_dedup : forall l, NoDup (dedup l).
Proof. intros; rewrite dedup_nodup; apply NoDup_nodup. Qed.

Lemma adjacency_records : forall G,
  adjacency G =
  map (fun k => (k, neighbours G k))
      (nodup Z.eq_dec (map fst (G ++ map (fun x => (snd x, fst x)) G))).
Proof.
  intros G. unfold adjacency, cache, partitionBy, mapValues, groupByKey, py_list.
  rewrite map_map. reflexivity.
Qed.

Lemma In_adjacency : forall G k V,
  In (k, V) (adjacency G) <-> V = neighbours G k /\ V <> [].
Proof.
  intros G k V. rewrite adjacency_records, in_map_iff. split.
  - intros [k' [E H]]. inversion E; subst. split; auto.
    apply nodup_In, in_map_iff in H as [[a b] [<- H]]. simpl.
    intros E'. assert (Hb : In b (neighbours G a)) by now apply In_values_of.
    rewrite E' in Hb. inversion Hb.
  - intros [-> Hne]. exists k. split; auto. apply nodup_In.
    destruct (neighbours G k) as [|v vs] eqn:E; [congruence|].
    assert (Hv : In v (neighbours G k)) by (rewrite E; now left).
    apply In_values_of in Hv. change k with (fst (k, v)). now apply in_map.
Qed.

Lemma In_finish : forall graph a b,
  In (a, b) (fst (finish graph)) <->
  exists k rest, In (k, rest, b) graph /\ (a = k \/ In a rest).
Proof.
  intros graph a b. unfold finish. simpl.
  rewrite In_dedup, in_app_iff, in_map_iff, in_flat_map. split.
  - intros [[[[k rest] m] [E H]] | [[[k rest] m] [H Hv]]].
    + inversion E; subst. exists a, rest. auto.
    + apply in_map_iff in Hv as [v [E Hv]]. inversion E; subst.
      exists k, rest. auto.
  - intros [k [rest [H [->|Hv]]]].
    + left. now exists (k, rest, b).
    + right. exists (k, rest, b). split; auto. apply in_map_iff. now exists a.
Qed.

Lemma list_sum_zero : forall l, list_sum l = 0%nat <-> forall n, In n l -> n = 0%nat.
Proof.
  induction l as [|x l IH]; simpl.
  - split; [intros _ n []| reflexivity].
  - split.
    + intros H n [<-|Hn]; [lia|]. apply IH; [lia | auto].
    + intros H. rewrite (H x) by now left. apply IH. intros; apply H; now right.
Qed.

Lemma finish_count_zero : forall graph,
  snd (finish graph) = 0%nat <->
  forall k rest m, In (k, rest, m) graph -> rest = [].
Proof.
  intros graph. unfold finish, rdd_sum. simpl. rewrite list_sum_zero. split.
  - intros H k rest m Hin. apply length_zero_iff_nil. apply H.
    apply in_map_iff. now exists (k, rest, m).
  - intros H n Hn. apply in_map_iff in Hn as [[[k rest] m] [<- Hin]].
    now rewrite (H _ _ _ Hin).
Qed.

Lemma NoDup_finish : forall graph, NoDup (fst (finish graph)).
Proof. intros; apply NoDup_dedup. Qed.

(** ** Sorting *)

Lemma sorted_Permutation : forall l, Permutation l (sorted l).
Proof. intros; apply ZSort.Permuted_sort. Qed.

Lemma sorted_StronglySorted : forall l, StronglySorted Z.le (sorted l).
Proof.
  intros l. pose proof (ZSort.Sorted_sort l) as H.
  apply Sorted_StronglySorted in H.
  - fold (sorted l) in H. induction H; constructor; auto.
    rewrite Forall_forall in *. intros y Hy. specialize (H0 y Hy).
    unfold is_true in H0. now apply Z.leb_le.
  - intros x y z. unfold is_true, ZOrder.leb. rewrite !Z.leb_le. lia.
Qed.

Lemma In_sorted : forall l v, In v (sorted l) <-> In v l.
Proof.
  intros l v. split; apply Permutation_in;
    [apply Permutation_sym|]; apply sorted_Permutation.
Qed.

Lemma sorted_head : forall l, l <> [] -> sorted l = lmin l :: py_rest (sorted l).
Proof.
  intros l Hne. destruct (sorted l) as [|h rest] eqn:E.
  - exfalso. apply Hne. apply Permutation_nil. rewrite <- E. apply Permutation_sym, sorted_Permutation.
  - simpl. f_equal. symmetry. apply lmin_unique.
    + apply In_sorted. rewrite E. now left.
    + intros y Hy. apply In_sorted in Hy. rewrite E in Hy.
      pose proof (sorted_StronglySorted l) as HS. rewrite E in HS.
      inversion HS as [|? ? _ HF]; subst. rewrite Forall_forall in HF.
      destruct Hy as [->|Hy]; [lia | auto].
Qed.

Lemma lmin_sorted : forall l, l <> [] -> lmin (sorted l) = lmin l.
Proof.
  intros l Hne. apply lmin_unique.
  - apply In_sorted. now apply lmin_in.
  - intros y Hy. apply lmin_le. now apply In_sorted.
Qed.

Lemma py_first_sorted : forall l, l <> [] -> py_first (sorted l) = Returns (lmin l).
Proof. intros l H. rewrite (sorted_head l H). reflexivity. Qed.

Lemma In_rest_sorted : forall l v, In v (py_rest (sorted l)) -> In v l /\ lmin l <= v.
Proof.
  intros l v H. destruct l as [|x xs].
  - unfold sorted in H. simpl in H. contradiction.
  - assert (Hne : x :: xs <> []) by discriminate.
    assert (Hv : In v (x :: xs)).
    { apply In_sorted. rewrite (sorted_head _ Hne). now right. }
    split; auto. now apply lmin_le.
Qed.

Lemma rest_sorted_In : forall l v, In v l -> v <> lmin l -> In v (py_rest (sorted l)).
Proof.
  intros l v Hv Hne. assert (Hl : l <> []) by (intros ->; inversion Hv).
  apply In_sorted in Hv. rewrite (sorted_head l Hl) in Hv.
  destruct Hv as [E|Hv]; [congruence | auto].
Qed.

(** ** The two jobs as [finish] of their reduced records *)

Lemma int_records : forall l : list (Z * list Z),
  map (fun x => (int (fst x), map int (snd x))) l = l.
Proof.
  intros l. rewrite <- (map_id l) at 2. apply map_ext. intros [k V].
  simpl. unfold int. now rewrite map_id.
Qed.

Lemma adjacency_nonempty : forall G x, In x (adjacency G) -> snd x <> [].
Proof. intros G [k V] H. apply In_adjacency in H. tauto. Qed.

Lemma CFF_iterate_finish : forall G, CFF_iterate G = Returns (finish (batch_graph G)).
Proof.
  intros G. unfold CFF_iterate. fold (adjacency G). rewrite int_records.
  rewrite (map_raising_returns _ (fun x => (fst x, snd x, lmin (snd x)))).
  - reflexivity.
  - intros x Hx. apply adjacency_nonempty in Hx.
    destruct (snd x) as [|v vs]; [congruence | reflexivity].
Qed.

Lemma CFF_iterate_sorting_finish : forall G,
  CFF_iterate_sorting G = Returns (finish (sorting_graph G)).
Proof.
  intros G. unfold CFF_iterate_sorting. fold (adjacency G).
  rewrite (map_ext _ (fun x => (fst x, sorted (snd x))))
    by (intros [k V]; simpl; unfold int; now rewrite map_id).
  rewrite (map_raising_returns _ (fun x => (fst x, snd x, lmin (snd x)))).
  - unfold sorting_graph. rewrite !map_map. simpl.
    rewrite (map_ext_in (fun x : Z * list Z => (fst x, sorted (snd x), lmin (sorted (snd x))))
                        (fun x => (fst x, sorted (snd x), lmin (snd x)))); [reflexivity|].
    intros x Hx. apply adjacency_nonempty in Hx. f_equal.
    now apply lmin_sorted.
  - intros x Hx. apply in_map_iff in Hx as [y [<- Hy]]. simpl.
    apply adjacency_nonempty in Hy.
    rewrite py_first_sorted, lmin_sorted by assumption. reflexivity.
Qed.

Lemma CFF_iterate_batch : forall G, CFF_iterate G = Returns (batch_step G).
Proof. intros G. unfold batch_step. now rewrite CFF_iterate_finish. Qed.

Lemma CFF_iterate_sorting_sorting : forall G, CFF_iterate_sorting G = Returns (sorting_step G).
Proof. intros G. unfold sorting_step. now rewrite CFF_iterate_sorting_finish. Qed.

Lemma batch_finish : forall G, batch_step G = finish (batch_graph G).
Proof. intros G. unfold batch_step. now rewrite CFF_iterate_finish. Qed.

Lemma sorting_finish : forall G, sorting_step G = finish (sorting_graph G).
Proof. intros G. unfold sorting_step. now rewrite CFF_iterate_sorting_finish. Qed.

Lemma In_batch_graph : forall G k rest m,
  In (k, rest, m) (batch_graph G) <->
  local_min G k < k /\ m = local_min G k /\
  rest = filter (fun val => negb (val =? m)) (neighbours G k).
Proof.
  intros G k rest m. unfold batch_graph. rewrite in_map_iff. split.
  - intros [[[k' V] m'] [E H]]. inversion E; subst; clear E.
    apply filter_In in H as [H Hgt]. apply in_map_iff in H as [[k'' V'] [E H]].
    simpl in E. inversion E; subst; clear E.
    apply In_adjacency in H as [-> Hne].
    destruct (local_min_lmin G k Hne) as [H1 H2].
    assert (Hlt : local_min G k < k) by (apply H1; lia).
    rewrite (H2 Hlt). auto.
  - intros [Hlt [-> ->]].
    assert (Hne : neighbours G k <> []).
    { intros E. apply local_min_lt_in in Hlt. rewrite E in Hlt. inversion Hlt. }
    destruct (local_min_lmin G k Hne) as [H1 H2].
    exists (k, neighbours G k, local_min G k). split; auto.
    apply filter_In. split; [|lia].
    apply in_map_iff. exists (k, neighbours G k). simpl. rewrite (H2 Hlt).
    split; auto. apply In_adjacency. auto.
Qed.

Lemma In_sorting_graph : forall G k rest m,
  In (k, rest, m) (sorting_graph G) <->
  local_min G k < k /\ m = local_min G k /\
  rest = py_rest (sorted (neighbours G k)).
Proof.
  intros G k rest m. unfold sorting_graph. rewrite in_map_iff. split.
  - intros [[[k' V] m'] [E H]]. inversion E; subst; clear E.
    apply filter_In in H as [H Hgt]. apply in_map_iff in H as [[k'' V'] [E H]].
    simpl in E. inversion E; subst; clear E.
    apply In_adjacency in H as [-> Hne].
    destruct (local_min_lmin G k Hne) as [H1 H2].
    assert (Hlt : local_min G k < k) by (apply H1; lia).
    rewrite (H2 Hlt). auto.
  - intros [Hlt [-> ->]].
    assert (Hne : neighbours G k <> []).
    { intros E. apply local_min_lt_in in Hlt. rewrite E in Hlt. inversion Hlt. }
    destruct (local_min_lmin G k Hne) as [H1 H2].
    exists (k, sorted (neighbours G k), local_min G k). split; auto.
    apply filter_In. split; [|lia].
    apply in_map_iff. exists (k, neighbours G k). simpl. rewrite (H2 Hlt).
    split; auto. apply In_adjacency. auto.
Qed.

(** ** Edges and counts of one iteration *)

Lemma In_batch : forall G a b,
  In (a, b) (fst (batch_step G)) <->
  exists k, local_min G k < k /\ b = local_min G k /\
            (a = k \/ (In a (neighbours G k) /\ a <> b)).
Proof.
  intros G a b. rewrite batch_finish, In_finish. split.
  - intros [k [rest [H Ha]]]. apply In_batch_graph in H as [Hlt [-> ->]].
    exists k. repeat split; auto. destruct Ha as [->|Ha]; auto. right.
    apply filter_In in Ha as [Ha Hne]. split; auto.
    apply negb_true_iff, Z.eqb_neq in Hne. auto.
  - intros [k [Hlt [-> Ha]]].
    exists k, (filter (fun val => negb (val =? local_min G k)) (neighbours G k)).
    split; [now apply In_batch_graph|].
    destruct Ha as [->|[Ha Hne]]; auto. right. apply filter_In. split; auto.
    now apply negb_true_iff, Z.eqb_neq.
Qed.

Lemma In_sorting : forall G a b,
  In (a, b) (fst (sorting_step G)) <->
  exists k, local_min G k < k /\ b = local_min G k /\
            (a = k \/ In a (py_rest (sorted (neighbours G k)))).
Proof.
  intros G a b. rewrite sorting_finish, In_finish. split.
  - intros [k [rest [H Ha]]]. apply In_sorting_graph in H as [Hlt [-> ->]].
    exists k. auto.
  - intros [k [Hlt [-> Ha]]].
    exists k, (py_rest (sorted (neighbours G k))).
    split; [now apply In_sorting_graph | auto].
Qed.

Lemma batch_count_zero : forall G,
  snd (batch_step G) = 0%nat <->
  forall k v, local_min G k < k -> In v (neighbours G k) -> v = local_min G k.
Proof.
  intros G. rewrite batch_finish, finish_count_zero. split.
  - intros H k v Hlt Hv.
    specialize (H k _ _ (proj2 (In_batch_graph G k _ _) (conj Hlt (conj eq_refl eq_refl)))).
    destruct (Z.eq_dec v (local_min G k)) as [E|Hne]; auto.
    assert (Hin : In v (filter (fun val => negb (val =? local_min G k)) (neighbours G k))).
    { apply filter_In. split; auto. now apply negb_true_iff, Z.eqb_neq. }
    rewrite H in Hin. inversion Hin.
  - intros H k rest m Hin. apply In_batch_graph in Hin as [Hlt [-> ->]].
    destruct (filter _ _) as [|v vs] eqn:E; auto.
    assert (Hv : In v (v :: vs)) by now left.
    rewrite <- E in Hv. apply filter_In in Hv as [Hv Hne].
    apply negb_true_iff, Z.eqb_neq in Hne. elim Hne. now apply H.
Qed.

Lemma sorting_count_zero : forall G,
  snd (sorting_step G) = 0%nat <->
  forall k, local_min G k < k -> py_rest (sorted (neighbours G k)) = [].
Proof.
  intros G. rewrite sorting_finish, finish_count_zero. split.
  - intros H k Hlt. apply (H k _ (local_min G k)). now apply In_sorting_graph.
  - intros H k rest m Hin. apply In_sorting_graph in Hin as [Hlt [-> ->]]. auto.
Qed.

Lemma NoDup_batch : forall G, NoDup (fst (batch_step G)).
Proof. intros; rewrite batch_finish; apply NoDup_finish. Qed.

Lemma NoDup_sorting : forall G, NoDup (fst (sorting_step G)).
Proof. intros; rewrite sorting_finish; apply NoDup_finish. Qed.

(** ** Representatives *)

Lemma representative_le_value : forall G n b, In (n, b) G -> representative G n <= b.
Proof.
  intros G n b H. apply (In_values_of Z.eq_dec) in H. unfold representative.
  destruct (values_of Z.eq_dec n G) as [|v vs]; [inversion H|].
  destruct H as [->|H]; [apply fold_min_le_init | now apply fold_min_le_in].
Qed.

Lemma representative_cases : forall G n,
  (representative G n = n /\ forall b, ~ In (n, b) G) \/
  In (n, representative G n) G.
Proof.
  intros G n. unfold representative.
  destruct (values_of Z.eq_dec n G) as [|v vs] eqn:E.
  - left. split; auto. intros b H. apply (In_values_of Z.eq_dec) in H.
    rewrite E in H. inversion H.
  - right. apply (In_values_of Z.eq_dec). rewrite E.
    destruct (fold_min_cases vs v) as [->|H]; [now left | now right].
Qed.

Lemma representative_same_edges : forall G H n,
  same_edges G H -> representative G n = representative H n.
Proof.
  assert (Hle : forall G H n, same_edges G H -> representative G n <= representative H n).
  { intros G H n S. destruct (representative_cases H n) as [[E Hno]|Hin].
    - destruct (representative_cases G n) as [[E' _]|Hin']; [lia|].
      apply S in Hin'. now apply Hno in Hin'.
    - apply representative_le_value. now apply S. }
  intros G H n S. apply Z.le_antisymm; apply Hle; auto.
  intros e; symmetry; apply S.
Qed.

(** ** Properties shared by the two jobs

    Both jobs are instances of one scheme: a key [k] whose smallest
    neighbour [m] is below it emits [(k, m)] and [(v, m)] for every other
    neighbour [v].  The section derives, from what the two jobs have in
    common, monotonicity, the shape of a converged edge set and the
    termination of the driver. *)

Section Engine.
Variable flag : bool.
Variable step : list edge -> list edge * nat.

Hypothesis iterate_step : forall G, iterate flag G = Returns (step G).
Hypothesis step_min : forall G k,
  local_min G k < k -> In (k, local_min G k) (fst (step G)).
Hypothesis step_other : forall G k v,
  local_min G k < k -> In v (neighbours G k) -> v <> local_min G k ->
  In (v, local_min G k) (fst (step G)).
Hypothesis step_inv : forall G a b,
  In (a, b) (fst (step G)) ->
  exists k, local_min G k < k /\ b = local_min G k /\
            (a = k \/ In a (neighbours G k)).
Hypothesis step_NoDup : forall G, NoDup (fst (step G)).
Hypothesis step_zero_settled : forall G, snd (step G) = 0%nat -> settled G.
Hypothesis step_zero_inv : forall G a b,
  snd (step G) = 0%nat -> In (a, b) (fst (step G)) ->
  local_min G a < a /\ b = local_min G a.
Hypothesis step_zero_intro : forall G,
  settled G -> NoDup G -> (forall a b, In (a, b) G -> b <= a) ->
  snd (step G) = 0%nat.

Lemma step_le : forall G a b, In (a, b) (fst (step G)) -> b <= a.
Proof.
  intros G a b H. apply step_inv in H as [k [Hlt [-> [->|Ha]]]]; [lia|].
  now apply local_min_le_neighbour.
Qed.

Lemma step_nodes : forall G a b,
  In (a, b) (fst (step G)) -> In a (nodes G) /\ In b (nodes G).
Proof.
  intros G a b H. apply step_inv in H as [k [Hlt [-> Ha]]].
  pose proof (neighbours_in_nodes G k _ (local_min_lt_in G k Hlt)) as [Hk Hm].
  split; auto. destruct Ha as [->|Ha]; auto.
  now apply neighbours_in_nodes in Ha.
Qed.

Lemma nodes_step : forall G n, In n (nodes (fst (step G))) -> In n (nodes G).
Proof.
  intros G n H. unfold nodes in H. apply in_app_iff in H.
  destruct H as [H|H]; apply in_map_iff in H as [[a b] [<- H]];
    apply step_nodes in H; tauto.
Qed.

(** The smallest identifier a node sees never grows. *)
Lemma local_min_step_le : forall G n,
  local_min (fst (step G)) n <= local_min G n.
Proof.
  intros G n. destruct (Z_lt_ge_dec (local_min G n) n) as [Hlt|Hge].
  - apply local_min_le_neighbour, In_neighbours. left. now apply step_min.
  - pose proof (local_min_le (fst (step G)) n). lia.
Qed.

Lemma representative_step_le : forall G n,
  representative (fst (step G)) n <= representative G n.
Proof.
  intros G n.
  assert (Hn : representative (fst (step G)) n <= n).
  { destruct (representative_cases (fst (step G)) n) as [[-> _]|H]; [lia|].
    now apply step_le in H. }
  destruct (representative_cases G n) as [[-> _]|H]; auto.
  assert (Hm : local_min G n <= representative G n).
  { apply local_min_le_neighbour, In_neighbours. now left. }
  destruct (Z_lt_ge_dec (local_min G n) n) as [Hlt|Hge]; [|lia].
  pose proof (representative_le_value _ _ _ (step_min G n Hlt)). lia.
Qed.

(** If an iteration leaves every local minimum unchanged, its output is
    settled. *)
Lemma stable_settled : forall G,
  (forall n, local_min (fst (step G)) n = local_min G n) ->
  settled (fst (step G)).
Proof.
  intros G Hst k v Hlt Hv.
  destruct (Z.eq_dec v (local_min (fst (step G)) k)) as [E|Hne]; auto.
  exfalso. rewrite Hst in Hlt, Hne.
  assert (Hdown : forall j, In j (neighbours G k) -> local_min G k < local_min G j ->
                            False).
  { intros j Hj Hjk.
    assert (Hne' : j <> local_min G k).
    { pose proof (local_min_le G j). lia. }
    pose proof (step_other G k j Hlt Hj Hne') as Hin.
    assert (local_min (fst (step G)) j <= local_min G k).
    { apply local_min_le_neighbour, In_neighbours. now left. }
    rewrite Hst in H. lia. }
  apply In_neighbours in Hv as [Hv|Hv].
  - pose proof Hv as Hv'.
    apply step_inv in Hv as [j [Hj [-> Hk]]].
    destruct Hk as [->|Hk]; [congruence|].
    assert (local_min (fst (step G)) k <= local_min G j).
    { apply local_min_le_neighbour, In_neighbours. now left. }
    rewrite Hst in H. apply (Hdown j); [now apply neighbours_sym | lia].
  - apply step_inv in Hv as [j [Hj [-> _]]].
    apply (Hdown j); [|lia].
    apply neighbours_sym. now apply local_min_lt_in.
Qed.

Lemma stable_zero : forall G,
  (forall n, local_min (fst (step G)) n = local_min G n) ->
  snd (step (fst (step G))) = 0%nat.
Proof.
  intros G Hst. apply step_zero_intro.
  - now apply stable_settled.
  - apply step_NoDup.
  - apply step_le.
Qed.

(** *** The output of an iteration that counts no new pair *)

Section Converged.
Variable G : list edge.
Hypothesis Hzero : snd (step G) = 0%nat.

Lemma converged_edge : forall a b,
  In (a, b) (fst (step G)) <-> local_min G a < a /\ b = local_min G a.
Proof.
  intros a b. split.
  - now apply step_zero_inv.
  - intros [Hlt ->]. now apply step_min.
Qed.

Lemma converged_target : forall a b,
  In (a, b) (fst (step G)) -> local_min G b = b.
Proof.
  intros a b H. apply converged_edge in H as [Hlt ->].
  pose proof (local_min_le G (local_min G a)) as Hle.
  destruct (Z.eq_dec (local_min G (local_min G a)) (local_min G a)) as [E|Hne]; auto.
  exfalso.
  assert (Ha : In a (neighbours G (local_min G a))).
  { now apply neighbours_sym, local_min_lt_in. }
  apply (step_zero_settled G Hzero) in Ha; lia.
Qed.

Lemma converged_neighbours : forall k v,
  In v (neighbours (fst (step G)) k) <->
  (local_min G k < k /\ v = local_min G k) \/
  (local_min G v < v /\ k = local_min G v).
Proof. intros k v. rewrite In_neighbours, !converged_edge. tauto. Qed.

Lemma converged_local_min : forall k,
  local_min (fst (step G)) k = local_min G k.
Proof.
  intros k. apply Z.le_antisymm; [apply local_min_step_le|].
  apply fold_min_lower; [apply local_min_le|].
  intros v Hv. apply converged_neighbours in Hv as [[_ ->]|[Hlt ->]]; [lia|].
  pose proof (local_min_le G (local_min G v)). lia.
Qed.

Lemma converged_settled : settled (fst (step G)).
Proof.
  intros k v Hlt Hv. rewrite converged_local_min in *.
  apply converged_neighbours in Hv as [[_ ->]|[Hv ->]]; auto.
  assert (In (v, local_min G v) (fst (step G))) by now apply step_min.
  apply converged_target in H. lia.
Qed.

Lemma converged_zero : snd (step (fst (step G))) = 0%nat.
Proof.
  apply step_zero_intro;
    [apply converged_settled | apply step_NoDup | apply step_le].
Qed.

Lemma converged_representative_fix : forall n,
  representative (fst (step G)) (representative (fst (step G)) n) =
  representative (fst (step G)) n.
Proof.
  intros n. destruct (representative_cases (fst (step G)) n) as [[E _]|H].
  - now rewrite !E.
  - apply converged_target in H.
    destruct (representative_cases (fst (step G))
                (representative (fst (step G)) n)) as [[E _]|H']; auto.
    apply converged_edge in H' as [Hlt _]. lia.
Qed.
End Converged.

Lemma converged_same_edges : forall G,
  snd (step G) = 0%nat -> same_edges (fst (step (fst (step G)))) (fst (step G)).
Proof.
  intros G Hz [a b].
  rewrite (converged_edge _ (converged_zero G Hz)), converged_local_min by assumption.
  symmetry. now apply converged_edge.
Qed.

(** *** The driver *)

Lemma process_loop_stop : forall fuel G i,
  process_loop fuel flag G i 0 = Returns (G, i).
Proof. intros [|fuel] G i; reflexivity. Qed.

Lemma process_loop_next : forall fuel G i n,
  process_loop (S fuel) flag G i (S n) =
  process_loop fuel flag (fst (step G)) (S i) (snd (step G)).
Proof.
  intros fuel G i n. simpl. rewrite iterate_step. simpl.
  now destruct (step G).
Qed.

Lemma run_counter : forall G i G' j, run step G i G' j -> (i < j)%nat.
Proof. induction 1; lia. Qed.

Lemma run_process_loop : forall G i G' j,
  run step G i G' j ->
  forall fuel n, (j - i <= fuel)%nat ->
                 process_loop fuel flag G i (S n) = Returns (G', j).
Proof.
  induction 1 as [G i Hz | G i G' j Hnz Hrun IH]; intros fuel n Hfuel.
  - destruct fuel as [|fuel]; [lia|].
    rewrite process_loop_next, Hz. apply process_loop_stop.
  - pose proof (run_counter _ _ _ _ Hrun).
    destruct fuel as [|fuel]; [lia|].
    rewrite process_loop_next.
    destruct (snd (step G)) as [|c]; [congruence|].
    apply IH. lia.
Qed.

Lemma process_loop_run : forall fuel G i n G' j,
  process_loop fuel flag G i (S n) = Returns (G', j) -> run step G i G' j.
Proof.
  induction fuel as [|fuel IH]; intros G i n G' j H; [discriminate|].
  rewrite process_loop_next in H.
  destruct (snd (step G)) as [|c] eqn:E.
  - rewrite process_loop_stop in H. inversion H; subst. now apply run_stop.
  - apply run_next; [lia|]. now apply IH in H.
Qed.

Lemma run_deterministic : forall G i G1 j1 G2 j2,
  run step G i G1 j1 -> run step G i G2 j2 -> G1 = G2 /\ j1 = j2.
Proof.
  intros G i G1 j1 G2 j2 H1. revert G2 j2.
  induction H1; intros G2 j2 H2; inversion H2; subst; auto; congruence.
Qed.

(** The exit state is the output of an iteration that counted nothing. *)
Lemma run_last : forall G i G' j,
  run step G i G' j -> exists H, snd (step H) = 0%nat /\ G' = fst (step H).
Proof. induction 1 as [G i Hz|]; eauto. Qed.

(** *** Termination *)

Lemma local_min_outside : forall G n, ~ In n (nodes G) -> local_min G n = n.
Proof.
  intros G n Hn. destruct (local_min_cases G n) as [E|H]; auto.
  apply neighbours_in_nodes in H. tauto.
Qed.

Lemma local_min_in_nodes : forall G n,
  In n (nodes G) -> In (local_min G n) (nodes G).
Proof.
  intros G n Hn. destruct (local_min_cases G n) as [->|H]; auto.
  now apply neighbours_in_nodes in H.
Qed.

Lemma potential_lower : forall L G lo,
  (forall x, In x L -> lo <= local_min G x) ->
  lo * Z.of_nat (length L) <= potential L G.
Proof.
  unfold potential. induction L as [|x L IH]; intros G lo H; simpl length; simpl.
  - lia.
  - specialize (IH G lo (fun y Hy => H y (or_intror Hy))).
    specialize (H x (or_introl eq_refl)). lia.
Qed.

Lemma potential_step : forall L G,
  potential L (fst (step G)) <= potential L G /\
  (potential L (fst (step G)) = potential L G ->
   forall x, In x L -> local_min (fst (step G)) x = local_min G x).
Proof.
  unfold potential. induction L as [|x L IH]; intros G; simpl.
  - split; [lia | intros _ y []].
  - destruct (IH G) as [Hle Heq]. pose proof (local_min_step_le G x) as Hx.
    split; [lia|]. intros E y [<-|Hy]; [lia|]. apply Heq; [lia | auto].
Qed.

Lemma run_exists_bounded : forall L lo,
  (forall x, In x L -> lo <= x) ->
  forall d G i,
    (forall x, In x (nodes G) -> In x L) ->
    potential L G - lo * Z.of_nat (length L) <= Z.of_nat d ->
    exists G' j, run step G i G' j /\ (j <= i + d + 2)%nat.
Proof.
  intros L lo Hlo.
  assert (Hlow : forall G, (forall x, In x (nodes G) -> In x L) ->
                           lo * Z.of_nat (length L) <= potential L G).
  { intros G HG. apply potential_lower. intros x Hx. apply Hlo.
    destruct (in_dec Z.eq_dec x (nodes G)) as [Hin|Hout].
    - now apply HG, local_min_in_nodes.
    - now rewrite local_min_outside. }
  induction d as [|d IH]; intros G i HG Hd.
  - destruct (Nat.eq_dec (snd (step G)) 0) as [Hz|Hnz].
    + exists (fst (step G)), (S i). split; [now apply run_stop | lia].
    + exists (fst (step (fst (step G)))), (S (S i)). split; [|lia].
      apply run_next; auto. apply run_stop. apply stable_zero.
      destruct (potential_step L G) as [Hle Heq].
      assert (HG1 : forall x, In x (nodes (fst (step G))) -> In x L).
      { intros x Hx. now apply HG, nodes_step. }
      pose proof (Hlow _ HG1).
      intros n. destruct (in_dec Z.eq_dec n L) as [Hin|Hout].
      * apply Heq; [lia | auto].
      * rewrite !local_min_outside; auto.
  - destruct (Nat.eq_dec (snd (step G)) 0) as [Hz|Hnz].
    + exists (fst (step G)), (S i). split; [now apply run_stop | lia].
    + destruct (potential_step L G) as [Hle Heq].
      assert (HG1 : forall x, In x (nodes (fst (step G))) -> In x L).
      { intros x Hx. now apply HG, nodes_step. }
      destruct (Z.eq_dec (potential L (fst (step G))) (potential L G)) as [E|Hlt].
      * exists (fst (step (fst (step G)))), (S (S i)). split; [|lia].
        apply run_next; auto. apply run_stop. apply stable_zero.
        intros n. destruct (in_dec Z.eq_dec n L) as [Hin|Hout].
        -- now apply Heq.
        -- rewrite !local_min_outside; auto.
      * destruct (IH (fst (step G)) (S i) HG1) as [G' [j [Hrun Hj]]]; [lia|].
        exists G', j. split; [now apply run_next | lia].
Qed.

Lemma run_exists : forall G i, exists G' j, run step G i G' j.
Proof.
  intros G i.
  set (L := nodes G). set (lo := fold_left Z.min L 0).
  destruct (run_exists_bounded L lo (fun x Hx => fold_min_le_in L 0 x Hx)
              (Z.to_nat (potential L G - lo * Z.of_nat (length L))) G i)
    as [G' [j [H _]]]; eauto. lia.
Qed.
End Engine.

(** ** The two jobs are instances of the scheme *)

Lemma NoDup_values_of : forall {K V} (dec : forall x y : K, {x = y} + {x <> y})
    (k : K) (l : list (K * V)),
  NoDup l -> NoDup (values_of dec k l).
Proof.
  intros K V dec k l H. induction H as [|[k' v] l Hnin Hnd IH].
  - constructor.
  - unfold values_of in *. simpl. destruct (dec k' k) as [->|Hne]; auto.
    simpl. constructor; auto. intros Hin.
    apply Hnin. now apply (In_values_of dec).
Qed.

Lemma NoDup_constant : forall (l : list Z) m,
  NoDup l -> (forall x, In x l -> x = m) -> (length l <= 1)%nat.
Proof.
  intros l m Hnd Hall. destruct Hnd as [|x l Hnin Hnd]; simpl; [lia|].
  destruct l as [|y l]; simpl; [lia|]. exfalso. apply Hnin.
  rewrite (Hall x), <- (Hall y); simpl; auto.
Qed.

Lemma rest_sorted_short : forall l, (length l <= 1)%nat -> py_rest (sorted l) = [].
Proof.
  intros l H. pose proof (Permutation_length (sorted_Permutation l)) as E.
  destruct (sorted l) as [|x [|y t]]; simpl in *; auto. lia.
Qed.

Lemma local_min_is_lmin : forall G k,
  local_min G k < k -> lmin (neighbours G k) = local_min G k.
Proof.
  intros G k Hlt. apply local_min_lmin; auto.
  intros E. apply local_min_lt_in in Hlt. rewrite E in Hlt. inversion Hlt.
Qed.

Lemma iterate_step_of : forall s G, iterate s G = Returns (step_of s G).
Proof.
  intros [|] G; simpl; [apply CFF_iterate_sorting_sorting | apply CFF_iterate_batch].
Qed.

Lemma step_of_min : forall s G k,
  local_min G k < k -> In (k, local_min G k) (fst (step_of s G)).
Proof.
  intros [|] G k Hlt; simpl; [apply In_sorting | apply In_batch];
    exists k; auto.
Qed.

Lemma step_of_other : forall s G k v,
  local_min G k < k -> In v (neighbours G k) -> v <> local_min G k ->
  In (v, local_min G k) (fst (step_of s G)).
Proof.
  intros [|] G k v Hlt Hv Hne; simpl; [apply In_sorting | apply In_batch];
    exists k; repeat split; auto.
  right. apply rest_sorted_In; auto. now rewrite local_min_is_lmin.
Qed.

Lemma step_of_inv : forall s G a b,
  In (a, b) (fst (step_of s G)) ->
  exists k, local_min G k < k /\ b = local_min G k /\
            (a = k \/ In a (neighbours G k)).
Proof.
  intros [|] G a b H; simpl in H;
    [apply In_sorting in H | apply In_batch in H];
    destruct H as [k [Hlt [-> Ha]]]; exists k; repeat split; auto.
  - destruct Ha as [->|Ha]; auto. right. now apply In_rest_sorted in Ha.
  - tauto.
Qed.

Lemma step_of_NoDup : forall s G, NoDup (fst (step_of s G)).
Proof. intros [|] G; [apply NoDup_sorting | apply NoDup_batch]. Qed.

Lemma step_of_zero_settled : forall s G, snd (step_of s G) = 0%nat -> settled G.
Proof.
  intros [|] G Hz; simpl in Hz.
  - intros k v Hlt Hv. destruct (Z.eq_dec v (local_min G k)) as [E|Hne]; auto.
    assert (Hin : In v (py_rest (sorted (neighbours G k)))).
    { apply rest_sorted_In; auto. now rewrite local_min_is_lmin. }
    rewrite (proj1 (sorting_count_zero G) Hz k Hlt) in Hin. inversion Hin.
  - intros k v. now apply batch_count_zero.
Qed.

Lemma step_of_zero_inv : forall s G a b,
  snd (step_of s G) = 0%nat -> In (a, b) (fst (step_of s G)) ->
  local_min G a < a /\ b = local_min G a.
Proof.
  intros [|] G a b Hz H; simpl in *.
  - apply In_sorting in H as [k [Hlt [-> [->|Ha]]]]; auto.
    rewrite (proj1 (sorting_count_zero G) Hz k Hlt) in Ha. inversion Ha.
  - apply In_batch in H as [k [Hlt [-> [->|[Ha Hne]]]]]; auto.
    elim Hne. now apply (proj1 (batch_count_zero G) Hz).
Qed.

Lemma step_of_zero_intro : forall s G,
  settled G -> NoDup G -> (forall a b, In (a, b) G -> b <= a) ->
  snd (step_of s G) = 0%nat.
Proof.
  intros [|] G Hs Hnd Hle; simpl.
  - apply sorting_count_zero. intros k Hlt. apply rest_sorted_short.
    rewrite neighbours_app.
    match goal with |- context [_ ++ ?up] => assert (Hup : up = []) end.
    { destruct (values_of _ _ _) as [|a t] eqn:E; auto. exfalso.
      assert (Ha : In a (a :: t)) by now left.
      rewrite <- E in Ha. apply In_values_of, in_map_iff in Ha as [[a' k'] [E' Ha]].
      simpl in E'. inversion E'; subst.
      assert (a = local_min G k) by (apply Hs; auto; apply In_neighbours; auto).
      apply Hle in Ha. lia. }
    rewrite Hup, app_nil_r.
    apply (NoDup_constant _ (local_min G k)).
    + now apply (NoDup_values_of Z.eq_dec).
    + intros v Hv. apply Hs; auto. apply In_neighbours. left.
      now apply (In_values_of Z.eq_dec).
  - now apply batch_count_zero.
Qed.

Ltac engine s :=
  first [ exact (iterate_step_of s) | exact (step_of_min s)
        | exact (step_of_other s) | exact (step_of_inv s)
        | exact (step_of_NoDup s) | exact (step_of_zero_settled s)
        | exact (step_of_zero_inv s) | exact (step_of_zero_intro s) ].

Lemma step_of_run_exists : forall s G i, exists G' j, run (step_of s) G i G' j.
Proof. intros s G i. apply run_exists; engine s. Qed.

Lemma step_of_run_process : forall s G G' j,
  run (step_of s) G 0 G' j -> process j G s = Returns (G', j).
Proof.
  intros s G G' j H. unfold process.
  apply (run_process_loop s (step_of s) (iterate_step_of s) _ _ _ _ H). lia.
Qed.

Lemma step_of_process_run : forall s fuel G G' j,
  process fuel G s = Returns (G', j) -> run (step_of s) G 0 G' j.
Proof.
  intros s fuel G G' j H.
  now apply (process_loop_run s (step_of s) (iterate_step_of s)) in H.
Qed.

Lemma process_more_fuel : forall s fuel fuel' G G' j,
  process fuel G s = Returns (G', j) -> (fuel <= fuel')%nat ->
  process fuel' G s = Returns (G', j).
Proof.
  intros s fuel fuel' G G' j H Hle. pose proof H as Hrun.
  apply step_of_process_run in Hrun. unfold process in *.
  apply (run_process_loop s (step_of s) (iterate_step_of s) _ _ _ _ Hrun).
  assert (Hj : forall f G i n G' j,
             process_loop f s G i (S n) = Returns (G', j) -> (j <= i + f)%nat).
  { induction f as [|f IH]; intros G0 i n G0' j0 H0; [discriminate|].
    rewrite (process_loop_next s (step_of s) (iterate_step_of s)) in H0.
    destruct (snd (step_of s G0)) as [|c].
    - rewrite (process_loop_stop) in H0. inversion H0; lia.
    - apply IH in H0. lia. }
  apply Hj in H. lia.
Qed.

(** The driver always returns; its result is the output of an iteration
    that counted no new pair. *)
Lemma process_returns : forall s E,
  exists G i H, process i E s = Returns (G, i) /\
                iterate s H = Returns (G, 0%nat).
Proof.
  intros s E. destruct (step_of_run_exists s E 0) as [G [i Hrun]].
  destruct (run_last _ _ _ _ _ Hrun) as [H [Hz ->]].
  exists (fst (step_of s H)), i, H. split.
  - now apply step_of_run_process.
  - rewrite iterate_step_of, <- Hz. now destruct (step_of s H).
Qed.

(** ** Comparing two runs

    [covers Gs Gb]: the two edge lists join the same nodes, except that
    [Gs] may hold self-loops that [Gb] lacks.  The relation is kept by one
    iteration of either job on the left and of the batch job on the right. *)

Lemma covers_refl : forall G, covers G G.
Proof. intros G; split; auto. Qed.

Lemma covers_local_min : forall Gs Gb k,
  covers Gs Gb -> local_min Gs k = local_min Gb k.
Proof.
  intros Gs Gb k [H1 H2]. apply Z.le_antisymm; apply fold_min_lower;
    try apply local_min_le; intros v Hv.
  - apply local_min_le_neighbour. auto.
  - destruct (Z.eq_dec v k) as [->|Hne]; [apply local_min_le|].
    apply local_min_le_neighbour. auto.
Qed.

Lemma covers_same_edges_r : forall Gs F F',
  covers Gs F -> same_edges F' F -> covers Gs F'.
Proof.
  intros Gs F F' [H1 H2] S. split; intros k v Hv.
  - apply H1. rewrite In_neighbours in *. destruct Hv as [Hv|Hv]; apply S in Hv; auto.
  - intros Hne. specialize (H2 k v Hv Hne). rewrite In_neighbours in *.
    destruct H2 as [Hv'|Hv']; apply S in Hv'; auto.
Qed.

Lemma off_diagonal_step : forall s1 s2 G1 G2,
  (forall k v, In v (neighbours G1 k) -> v <> k -> In v (neighbours G2 k)) ->
  (forall k, local_min G1 k = local_min G2 k) ->
  forall a b, In (a, b) (fst (step_of s1 G1)) -> a <> b ->
              In (a, b) (fst (step_of s2 G2)).
Proof.
  intros s1 s2 G1 G2 HN Hm a b H Hab.
  apply step_of_inv in H as [k [Hlt [-> Ha]]]. rewrite Hm in *.
  destruct Ha as [->|Ha]; [now apply step_of_min|].
  destruct (Z.eq_dec a k) as [->|Hne]; [now apply step_of_min|].
  apply step_of_other; auto.
Qed.

Lemma batch_irreflexive : forall G a b, In (a, b) (fst (batch_step G)) -> a <> b.
Proof.
  intros G a b H. apply In_batch in H as [k [Hlt [-> [->|[_ Hne]]]]]; [lia | auto].
Qed.

Lemma covers_step : forall s Gs Gb,
  covers Gs Gb ->
  (forall e, In e (fst (batch_step Gb)) -> In e (fst (step_of s Gs))) /\
  (forall a b, In (a, b) (fst (step_of s Gs)) -> a <> b -> In (a, b) (fst (batch_step Gb))).
Proof.
  intros s Gs Gb HR. pose proof HR as [H1 H2]. split.
  - intros [a b] H. pose proof (batch_irreflexive _ _ _ H) as Hab.
    apply (off_diagonal_step false s Gb Gs); auto.
    intros k. symmetry. now apply covers_local_min.
  - intros a b H Hab. apply (off_diagonal_step s false Gs Gb); auto.
    intros k. now apply covers_local_min.
Qed.

Lemma covers_next : forall s Gs Gb,
  covers Gs Gb -> covers (fst (step_of s Gs)) (fst (batch_step Gb)).
Proof.
  intros s Gs Gb HR. destruct (covers_step s Gs Gb HR) as [H1 H2].
  split; intros k v; rewrite !In_neighbours.
  - intros [H|H]; apply H1 in H; auto.
  - intros [H|H] Hne; apply H2 in H; auto.
Qed.

Lemma covers_zero : forall s Gs Gb,
  covers Gs Gb -> snd (step_of s Gs) = 0%nat -> snd (batch_step Gb) = 0%nat.
Proof.
  intros s Gs Gb HR Hz. apply batch_count_zero. intros k v Hlt Hv.
  rewrite <- (covers_local_min Gs Gb k HR) in *.
  apply (step_of_zero_settled s Gs Hz); auto. now apply HR.
Qed.

Lemma covers_zero_edges : forall s Gs Gb,
  covers Gs Gb -> snd (step_of s Gs) = 0%nat ->
  same_edges (fst (step_of s Gs)) (fst (batch_step Gb)).
Proof.
  intros s Gs Gb HR Hz [a b].
  pose proof (covers_zero s Gs Gb HR Hz) as Hzb.
  rewrite (converged_edge (step_of s)); auto; try engine s.
  change batch_step with (step_of false).
  rewrite (converged_edge (step_of false)); auto; try engine false.
  now rewrite (covers_local_min Gs Gb a HR).
Qed.

(** Once the batch job has converged to [F], every later iteration on the
    left still converges to the edges of [F]. *)
Lemma run_covers_fixed : forall s F,
  same_edges (fst (batch_step F)) F ->
  forall Gs i Fs j, run (step_of s) Gs i Fs j -> covers Gs F -> same_edges Fs F.
Proof.
  intros s F HF Gs i Fs j Hrun.
  induction Hrun as [Gs i Hz | Gs i Fs j Hnz Hrun IH]; intros HR.
  - intros e. rewrite (covers_zero_edges s Gs F HR Hz e). apply HF.
  - apply IH. apply (covers_same_edges_r _ (fst (batch_step F))).
    + now apply covers_next.
    + intros e; symmetry; apply HF.
Qed.

Lemma run_covers : forall s Gs i Fs j,
  run (step_of s) Gs i Fs j ->
  forall Gb ib, covers Gs Gb ->
  exists Fb jb, run batch_step Gb ib Fb jb /\ same_edges Fs Fb /\ (jb + i <= j + ib)%nat.
Proof.
  intros s Gs i Fs j Hrun.
  induction Hrun as [Gs i Hz | Gs i Fs j Hnz Hrun IH]; intros Gb ib HR.
  - exists (fst (batch_step Gb)), (S ib). split; [|split; [|lia]].
    + apply run_stop. now apply (covers_zero s Gs).
    + now apply covers_zero_edges.
  - destruct (Nat.eq_dec (snd (batch_step Gb)) 0) as [Hzb|Hnzb].
    + exists (fst (batch_step Gb)), (S ib). split; [now apply run_stop|]. split.
      * apply (run_covers_fixed s (fst (batch_step Gb))) with (2 := Hrun).
        -- change batch_step with (step_of false).
           apply converged_same_edges; auto; engine false.
        -- now apply covers_next.
      * apply run_counter in Hrun. lia.
    + destruct (IH (fst (batch_step Gb)) (S ib)) as [Fb [jb [Hb [HS Hj]]]].
      * now apply covers_next.
      * exists Fb, jb. split; [now apply run_next|]. split; auto. lia.
Qed.

(** Inputs that join the same nodes converge to the same edges, whichever
    job is selected. *)
Lemma same_graph_same_result : forall s E E' G i G' i',
  (forall k v, In v (neighbours E k) <-> In v (neighbours E' k)) ->
  run (step_of s) E 0 G i -> run (step_of s) E' 0 G' i' -> same_edges G G'.
Proof.
  intros s E E' G i G' i' HQ Hrun Hrun'.
  destruct (run_covers s _ _ _ _ Hrun E' 0%nat) as [F [j [HF [HS _]]]].
  { split; intros k v Hv; [|intros _]; now apply HQ. }
  destruct (run_covers s _ _ _ _ Hrun' E' 0%nat (covers_refl E'))
    as [F' [j' [HF' [HS' _]]]].
  destruct (run_deterministic _ _ _ _ _ _ _ HF HF') as [<- _].
  intros e. rewrite (HS e). symmetry. apply HS'.
Qed.

Lemma process_deterministic : forall s E fuel fuel' G i G' i',
  process fuel E s = Returns (G, i) -> process fuel' E s = Returns (G', i') ->
  G = G' /\ i = i'.
Proof.
  intros s E fuel fuel' G i G' i' H H'.
  apply step_of_process_run in H, H'.
  exact (run_deterministic _ _ _ _ _ _ _ H H').
Qed.

(** ** The per-record count and the two ways of dropping the minimum *)

Lemma batch_graph_count : forall l : list (Z * list Z),
  rdd_sum
    (map (fun '(_, x1, _) => length x1)
       (map (fun '(x0, x1, x2) => (x0, filter (fun val => negb (val =? x2)) x1, x2))
          (filter (fun '(x0, _, x2) => x0 >? x2)
             (map (fun x => (fst x, snd x, lmin (snd x))) l)))) =
  list_sum (map contribution l).
Proof.
  unfold rdd_sum. induction l as [|[k V] l IH]; simpl; [reflexivity|].
  unfold contribution at 1. simpl.
  destruct (k >? lmin V); simpl; rewrite IH; reflexivity.
Qed.

Lemma partition_minimum : forall (l : list Z) m,
  Permutation l (repeat m (count_occ Z.eq_dec l m) ++
                 filter (fun val => negb (val =? m)) l).
Proof.
  induction l as [|x l IH]; intros m; simpl; [constructor|].
  destruct (Z.eq_dec x m) as [->|Hne].
  - rewrite Z.eqb_refl. simpl. now constructor.
  - apply Z.eqb_neq in Hne. rewrite Hne. simpl. now apply Permutation_cons_app.
Qed.

Lemma rest_sorted_Permutation : forall V,
  V <> [] ->
  Permutation (py_rest (sorted V))
    (repeat (lmin V) (count_occ Z.eq_dec V (lmin V) - 1) ++
     filter (fun val => negb (val =? lmin V)) V).
Proof.
  intros V Hne.
  assert (Hc : (0 < count_occ Z.eq_dec V (lmin V))%nat)
    by (apply count_occ_In; now apply lmin_in).
  apply (Permutation_cons_inv (a := lmin V)).
  rewrite <- (sorted_head V Hne).
  eapply Permutation_trans; [apply Permutation_sym, sorted_Permutation|].
  eapply Permutation_trans; [apply (partition_minimum V (lmin V))|].
  destruct (count_occ Z.eq_dec V (lmin V)) as [|c']; [lia|].
  simpl. rewrite Nat.sub_0_r. apply Permutation_refl.
Qed.

Lemma sorting_graph_count : forall l : list (Z * list Z),
  rdd_sum
    (map (fun '(_, x1, _) => length x1)
       (map (fun '(x0, x1, x2) => (x0, py_rest x1, x2))
          (filter (fun '(x0, _, x2) => x0 >? x2)
             (map (fun x => (fst x, sorted (snd x), lmin (snd x))) l)))) =
  list_sum (map contribution_sorting l).
Proof.
  unfold rdd_sum. induction l as [|[k V] l IH]; simpl; [reflexivity|].
  unfold contribution_sorting at 1. simpl.
  destruct (k >? lmin V); simpl; rewrite IH; reflexivity.
Qed.

Lemma contribution_le_sorting : forall x, (contribution x <= contribution_sorting x)%nat.
Proof.
  intros [k V]. unfold contribution, contribution_sorting. simpl.
  destruct (k >? lmin V); [|lia].
  destruct V as [|v V']; [vm_compute; lia|].
  assert (Hne : v :: V' <> []) by discriminate.
  rewrite (Permutation_length (rest_sorted_Permutation _ Hne)), length_app. lia.
Qed.

Lemma batch_count_le_sorting : forall E,
  (snd (batch_step E) <= snd (sorting_step E))%nat.
Proof.
  intros E. rewrite batch_finish, sorting_finish.
  unfold finish, batch_graph, sorting_graph. simpl.
  rewrite batch_graph_count, sorting_graph_count.
  induction (adjacency E) as [|x l IH]; simpl; [lia|].
  pose proof (contribution_le_sorting x). lia.
Qed.

Lemma In_finish_single : forall n r m a b,
  In (a, b) (fst (finish [(n, r, m)])) <-> b = m /\ (a = n \/ In a r).
Proof.
  intros n r m a b. rewrite In_finish. split.
  - intros [k [rest [[E|[]] Ha]]]. inversion E; subst. auto.
  - intros [-> Ha]. exists n, r. split; [now left | auto].
Qed.

(** * The claims *)

(** C1.  Equivalence of variants, as the code has it: for every input edge
    list both drivers return, their final edge lists hold the same pairs,
    so every node has the same representative, and the batch variant needs
    no more iterations than the sorted one (it can need fewer). *)
Theorem variants_agree : forall E : list edge,
  exists fuel Gb ib Gs js,
    process fuel E false = Returns (Gb, ib) /\
    process fuel E true = Returns (Gs, js) /\
    same_edges Gb Gs /\
    (forall n, representative Gb n = representative Gs n) /\
    (ib <= js)%nat.
Proof.
  intros E. destruct (step_of_run_exists true E 0) as [Gs [js Hs]].
  destruct (run_covers true _ _ _ _ Hs E 0%nat (covers_refl E))
    as [Gb [ib [Hb [HS Hle]]]].
  exists js, Gb, ib, Gs, js.
  assert (Hsame : same_edges Gb Gs) by (intros e; symmetry; apply HS).
  split; [|split; [|split; [|split]]]; auto.
  - apply (process_more_fuel false ib js); [|lia].
    now apply (step_of_run_process false).
  - now apply (step_of_run_process true).
  - intros n. now apply representative_same_edges.
  - lia.
Qed.

(** C1, the claim as stated fails: on the edges [(1,2); (2,1)] the batch
    driver exits after one iteration and the sorted driver after two, so no
    common iteration count exists. *)
Lemma variants_iterations_differ :
  ~ (exists fuel fuel' Gb Gs i,
       process fuel [(1, 2); (2, 1)] false = Returns (Gb, i) /\
       process fuel' [(1, 2); (2, 1)] true = Returns (Gs, i)).
Proof.
  intros (fuel & fuel' & Gb & Gs & i & Hb & Hs).
  assert (H1 : process 1 [(1, 2); (2, 1)] false = Returns ([(2, 1)], 1%nat))
    by (vm_compute; reflexivity).
  assert (H2 : process 2 [(1, 2); (2, 1)] true = Returns ([(2, 1)], 2%nat))
    by (vm_compute; reflexivity).
  destruct (process_deterministic _ _ _ _ _ _ _ _ Hb H1) as [_ E1].
  destruct (process_deterministic _ _ _ _ _ _ _ _ Hs H2) as [_ E2].
  lia.
Qed.

(** C2.  The literal scenario, as the code runs it: for either variant the
    four iterations report 4, 9, 4 and 0 new pairs, so the driver exits
    after three productive iterations and a fourth one that observes zero
    new pairs; the converged edges map 1, 2, 3, 4, 5 to 1 and 6, 7, 8 to 6
    (a component of five nodes led by 1 and one of three led by 6). *)
Theorem scenario_converges : forall sorting_flag : bool,
  exists G1 G2 G3 G4,
    iterate sorting_flag scenario = Returns (G1, 4%nat) /\
    iterate sorting_flag G1 = Returns (G2, 9%nat) /\
    iterate sorting_flag G2 = Returns (G3, 4%nat) /\
    iterate sorting_flag G3 = Returns (G4, 0%nat) /\
    process 4 scenario sorting_flag = Returns (G4, 4%nat) /\
    map (representative G4) [1; 2; 3; 4; 5; 6; 7; 8] = [1; 1; 1; 1; 1; 6; 6; 6] /\
    length (filter (fun n => representative G4 n =? 1) [1; 2; 3; 4; 5; 6; 7; 8]) = 5%nat /\
    length (filter (fun n => representative G4 n =? 6) [1; 2; 3; 4; 5; 6; 7; 8]) = 3%nat.
Proof.
  intros [|]; do 4 eexists;
    (split; [vm_compute; reflexivity|]);
    (split; [vm_compute; reflexivity|]);
    (split; [vm_compute; reflexivity|]);
    (split; [vm_compute; reflexivity|]);
    (split; [vm_compute; reflexivity|]);
    (split; [vm_compute; reflexivity|]);
    split; vm_compute; reflexivity.
Qed.

(** C2, the claim as stated fails: the driver never exits the scenario
    with three executed iterations, since the third iteration still
    reports four new pairs. *)
Lemma scenario_not_three_iterations :
  ~ (exists fuel G, process fuel scenario false = Returns (G, 3%nat)) /\
  (exists G1 G2 G3,
     CFF_iterate scenario = Returns (G1, 4%nat) /\
     CFF_iterate G1 = Returns (G2, 9%nat) /\
     CFF_iterate G2 = Returns (G3, 4%nat)).
Proof.
  split.
  - intros (fuel & G & H).
    assert (H4 : process 4 scenario false =
                 Returns ([(7, 6); (8, 6); (3, 1); (2, 1); (5, 1); (4, 1)], 4%nat))
      by (vm_compute; reflexivity).
    destruct (process_deterministic _ _ _ _ _ _ _ _ H H4) as [_ E]. lia.
  - do 3 eexists.
    split; [vm_compute; reflexivity|].
    split; vm_compute; reflexivity.
Qed.

(** C3.  The new-pairs count of the batch job, as the code has it: every
    adjacency record [(n, V)] with [m = min V] adds the number of values of
    [V] different from [m] (the pair [(n, m)] itself is not counted) when
    [n > m], and nothing otherwise; the sum over all records is the count
    the job returns, and it is the value the driver tests to continue. *)
Theorem new_pairs_count : forall E : list edge,
  exists G c,
    CFF_iterate E = Returns (G, c) /\
    c = list_sum (map contribution (adjacency E)) /\
    forall fuel i n,
      process_loop (S fuel) false E i (S n) = process_loop fuel false G (S i) c.
Proof.
  intros E. exists (fst (batch_step E)), (snd (batch_step E)). split; [|split].
  - rewrite CFF_iterate_batch. now destruct (batch_step E).
  - rewrite batch_finish. unfold finish, batch_graph. simpl.
    apply batch_graph_count.
  - intros fuel i n.
    apply (process_loop_next false (step_of false) (iterate_step_of false)).
Qed.

(** C3, the claim as stated fails: on the single edge [(1, 2)] the record
    of key 2 holds the only value 1; the job reports zero new pairs where
    the claimed formula gives one. *)
Lemma new_pairs_count_not_spec :
  exists G c,
    CFF_iterate [(1, 2)] = Returns (G, c) /\
    adjacency [(1, 2)] = [(1, [2]); (2, [1])] /\
    c = 0%nat /\
    list_sum (map contribution_spec (adjacency [(1, 2)])) = 1%nat /\
    c <> list_sum (map contribution_spec (adjacency [(1, 2)])).
Proof.
  do 2 eexists. split; [vm_compute; reflexivity|].
  split; [vm_compute; reflexivity|].
  split; [reflexivity|]. split; [vm_compute; reflexivity|].
  vm_compute. discriminate.
Qed.

(** C4.  The sorted variant's way of dropping the minimum, as the code has
    it.  For every non-empty value list [V] with minimum [m] occurring [c]
    times, the first element of the sorted [V] is [m], and [V[1:]] of the
    sorted [V] holds the values different from [m] together with the [c-1]
    further occurrences of [m]; so the sorted variant counts [c-1] more
    pairs for the record than the batch variant, and emits the same pairs
    plus, when [c >= 2], the self-loop [(m, m)]; when [m] occurs once the
    two variants emit the same pairs and count the same.  For every input,
    accordingly, the pairs of the batch job are pairs of the sorted job,
    the other pairs of the sorted job are self-loops, and the batch count
    is at most the sorted count. *)
Theorem sorted_rest_keeps_repeated_minimum :
  (forall (n v0 : Z) (V' : list Z),
     let V := v0 :: V' in
     let m := lmin V in
     let c := count_occ Z.eq_dec V m in
     let others := filter (fun val => negb (val =? m)) V in
     py_min V = Returns m /\
     py_first (sorted V) = Returns m /\
     Permutation (py_rest (sorted V)) (repeat m (c - 1) ++ others) /\
     snd (finish [(n, py_rest (sorted V), m)]) =
       (snd (finish [(n, others, m)]) + (c - 1))%nat /\
     (forall e, In e (fst (finish [(n, py_rest (sorted V), m)])) <->
                In e (fst (finish [(n, others, m)])) \/
                (e = (m, m) /\ (2 <= c)%nat))) /\
  (forall E : list edge,
     exists Gb cb Gs cs,
       CFF_iterate E = Returns (Gb, cb) /\
       CFF_iterate_sorting E = Returns (Gs, cs) /\
       (forall e, In e Gb -> In e Gs) /\
       (forall a b, In (a, b) Gs -> In (a, b) Gb \/ a = b) /\
       (cb <= cs)%nat).
Proof.
  split.
  - intros n v0 V' V m c others.
    assert (Hne : V <> []) by discriminate.
    pose proof (rest_sorted_Permutation V Hne) as Hperm. fold m c others in Hperm.
    split; [reflexivity|]. split; [now apply py_first_sorted|].
    split; [exact Hperm|]. split.
    + unfold finish, rdd_sum. simpl.
      rewrite (Permutation_length Hperm), length_app, repeat_length. lia.
    + intros [a b]. rewrite !In_finish_single. split.
      * intros [-> [->|Ha]]; auto.
        apply (Permutation_in _ Hperm), in_app_iff in Ha as [Ha|Ha]; auto.
        right. pose proof (repeat_spec _ _ _ Ha) as ->. split; auto.
        destruct c as [|[|c']]; simpl in Ha; try contradiction; lia.
      * intros [[-> Ha]|[E Hc]].
        -- split; auto. destruct Ha as [->|Ha]; auto. right.
           apply (Permutation_in _ (Permutation_sym Hperm)), in_app_iff. auto.
        -- inversion E; subst a b. split; auto. right.
           apply (Permutation_in _ (Permutation_sym Hperm)), in_app_iff. left.
           destruct c as [|[|c']]; try lia. simpl. now left.
  - intros E.
    exists (fst (batch_step E)), (snd (batch_step E)),
           (fst (sorting_step E)), (snd (sorting_step E)).
    destruct (covers_step true E E (covers_refl E)) as [H1 H2].
    split; [rewrite CFF_iterate_batch; now destruct (batch_step E)|].
    split; [rewrite CFF_iterate_sorting_sorting; now destruct (sorting_step E)|].
    split; [exact H1|]. split; [|apply batch_count_le_sorting].
    intros a b H. destruct (Z.eq_dec a b) as [Hab|Hab]; auto.
Qed.

(** C4, the claim as stated fails: on the record of key 2 with values
    [1; 1] (which [adjacency] builds from the edges [(1,2); (2,1)]) the
    sorted variant keeps one 1 where the batch variant keeps none, so it
    emits the additional pair [(1, 1)] and counts one where the batch
    variant counts zero. *)
Lemma sorted_rest_not_filter :
  In (2, [1; 1]) (adjacency [(1, 2); (2, 1)]) /\
  (2 >? lmin [1; 1]) = true /\
  py_rest (sorted [1; 1]) = [1] /\
  filter (fun val => negb (val =? lmin [1; 1])) [1; 1] = [] /\
  ~ Permutation (py_rest (sorted [1; 1]))
                (filter (fun val => negb (val =? lmin [1; 1])) [1; 1]) /\
  CFF_iterate [(1, 2); (2, 1)] = Returns ([(2, 1)], 0%nat) /\
  CFF_iterate_sorting [(1, 2); (2, 1)] = Returns ([(2, 1); (1, 1)], 1%nat).
Proof.
  split; [vm_compute; auto|]. split; [reflexivity|].
  split; [vm_compute; reflexivity|]. split; [reflexivity|].
  split; [|split; vm_compute; reflexivity].
  intros H. apply Permutation_length in H. vm_compute in H. discriminate.
Qed.

(** C5.  The self-loop scenario: for either variant the pair emitter keeps
    the self-loop (key 3 is grouped with the values 3 and 3), the record is
    filtered out because 3 is not greater than its minimum 3, the first
    iteration reports zero new pairs, the driver exits after that single
    unproductive iteration, and 3 is its own representative. *)
Theorem self_loop_scenario : forall sorting_flag : bool,
  adjacency [(3, 3)] = [(3, [3; 3])] /\
  (3 >? lmin [3; 3]) = false /\
  iterate sorting_flag [(3, 3)] = Returns ([], 0%nat) /\
  process 1 [(3, 3)] sorting_flag = Returns ([], 1%nat) /\
  representative [] 3 = 3.
Proof. intros [|]; vm_compute; repeat split; reflexivity. Qed.

(** C6.  Monotonicity: for every input edge list, either variant, every
    iteration index [i] and every node [n], the representative of [n]
    after iteration [i+1] is at most its representative after iteration
    [i]. *)
Theorem representative_monotone : forall (sorting_flag : bool) (E : list edge) (i : nat) (n : Z),
  exists G G',
    edges_after sorting_flag E i = Returns G /\
    edges_after sorting_flag E (S i) = Returns G' /\
    representative G' n <= representative G n.
Proof.
  intros s E i n.
  assert (Hret : exists G, edges_after s E i = Returns G).
  { induction i as [|i [G IH]]; simpl; [now exists E|].
    rewrite IH. simpl. rewrite iterate_step_of. simpl.
    destruct (step_of s G) as [G' c]. now exists G'. }
  destruct Hret as [G HG]. exists G, (fst (step_of s G)). split; auto. split.
  - simpl. rewrite HG. simpl. rewrite iterate_step_of. simpl.
    now destruct (step_of s G).
  - apply representative_step_le; engine s.
Qed.

(** C7.  Representative validity: the converged output of the driver (which
    always exists) maps every node [n] to a representative that is at most
    [n] and is its own representative. *)
Theorem representative_valid : forall (sorting_flag : bool) (E : list edge),
  exists fuel G i,
    process fuel E sorting_flag = Returns (G, i) /\
    forall n, representative G n <= n /\
              representative G (representative G n) = representative G n.
Proof.
  intros s E. destruct (process_returns s E) as [G [i [H [Hp Hi]]]].
  exists i, G, i. split; auto. intros n.
  rewrite iterate_step_of in Hi. inversion Hi as [Hi'].
  assert (Hz : snd (step_of s H) = 0%nat) by now rewrite Hi'.
  assert (HG : G = fst (step_of s H)) by now rewrite Hi'.
  rewrite HG. split.
  - destruct (representative_cases (fst (step_of s H)) n) as [[-> _]|Hin]; [lia|].
    apply (step_le (step_of s)) in Hin; auto; engine s.
  - apply converged_representative_fix; auto; engine s.
Qed.

(** C8.  Idempotence: the converged output [G] of the driver (which always
    exists) is such that one further call of the selected iteration on [G]
    reports zero new pairs, and the driver run on [G] exits after that
    single unproductive iteration, with the same edges. *)
Theorem converged_idempotent : forall (sorting_flag : bool) (E : list edge),
  exists fuel G i G',
    process fuel E sorting_flag = Returns (G, i) /\
    iterate sorting_flag G = Returns (G', 0%nat) /\
    process 1 G sorting_flag = Returns (G', 1%nat) /\
    same_edges G' G.
Proof.
  intros s E. destruct (process_returns s E) as [G [i [H [Hp Hi]]]].
  rewrite iterate_step_of in Hi. inversion Hi as [Hi'].
  assert (Hz : snd (step_of s H) = 0%nat) by now rewrite Hi'.
  assert (HG : G = fst (step_of s H)) by now rewrite Hi'.
  assert (Hz' : snd (step_of s G) = 0%nat).
  { rewrite HG. apply converged_zero; auto; engine s. }
  exists i, G, i, (fst (step_of s G)). split; auto.
  assert (Hit : iterate s G = Returns (fst (step_of s G), 0%nat)).
  { rewrite iterate_step_of, <- Hz'. now destruct (step_of s G). }
  split; auto. split.
  - unfold process. simpl. rewrite Hit. reflexivity.
  - rewrite HG. apply converged_same_edges; auto; engine s.
Qed.

(** C9.  Duplicated and reversed edges do not change the result: for
    either variant the edges [(1,2); (1,2); (2,1)] converge to the same
    edge list, hence the same mapping, as the single edge [(1,2)]; and for
    every input, removing the duplicates beforehand leads to the same
    converged pairs and the same representatives. *)
Theorem duplicates_idempotent :
  (forall sorting_flag : bool,
     exists G i i',
       process 2 [(1, 2); (1, 2); (2, 1)] sorting_flag = Returns (G, i) /\
       process 2 [(1, 2)] sorting_flag = Returns (G, i') /\
       forall n, representative G n = if n =? 2 then 1 else n) /\
  (forall (sorting_flag : bool) (E : list edge),
     exists fuel G i G' i',
       process fuel E sorting_flag = Returns (G, i) /\
       process fuel (nodup edge_eq_dec E) sorting_flag = Returns (G', i') /\
       same_edges G G' /\
       forall n, representative G n = representative G' n).
Proof.
  split.
  - intros s. exists [(2, 1)].
    assert (Hrep : forall n, representative [(2, 1)] n = if n =? 2 then 1 else n).
    { intros n. destruct (Z.eq_dec n 2) as [->|Hne]; [reflexivity|].
      apply Z.eqb_neq in Hne as Hb. rewrite Hb.
      destruct (representative_cases [(2, 1)] n) as [[E _]|[H|[]]]; auto.
      inversion H. congruence. }
    destruct s; do 2 eexists;
      (split; [vm_compute; reflexivity|]);
      (split; [vm_compute; reflexivity|]); exact Hrep.
  - intros s E.
    destruct (step_of_run_exists s E 0) as [G [i Hrun]].
    destruct (step_of_run_exists s (nodup edge_eq_dec E) 0) as [G' [i' Hrun']].
    assert (HS : same_edges G G').
    { apply (same_graph_same_result s E (nodup edge_eq_dec E) G i G' i'); auto.
      intros k v. rewrite !In_neighbours, !nodup_In. tauto. }
    exists (Nat.max i i'), G, i, G', i'. split; [|split; [|split]]; auto.
    + apply (process_more_fuel s i); [now apply step_of_run_process | lia].
    + apply (process_more_fuel s i'); [now apply step_of_run_process | lia].
    + intros n. now apply representative_same_edges.
Qed.

(** C10.  For every finite edge list over the integers (every finite set
    of integers is bounded below) and either variant, the driver [process]
    terminates: given enough fuel it returns, after [i] iterations of which
    the last one counted zero new pairs. *)
Theorem process_terminates : forall (E : list edge) (sorting_flag : bool),
  exists fuel G i,
    process fuel E sorting_flag = Returns (G, i) /\
    (forall fuel', (fuel <= fuel')%nat ->
                   process fuel' E sorting_flag = Returns (G, i)) /\
    (exists H, iterate sorting_flag H = Returns (G, 0%nat)).
Proof.
  intros E s. destruct (process_returns s E) as [G [i [H [Hp Hi]]]].
  exists i, G, i. split; [exact Hp|]. split; [|now exists H].
  intros fuel' Hle. now apply (process_more_fuel s i fuel').
Qed.

(** * Further properties of the notebook *)

(** ** Connected components are kept by every iteration *)

Lemma neighbours_connected : forall G k v,
  In v (neighbours G k) -> connected G k v.
Proof.
  intros G k v H. apply In_neighbours in H as [H|H].
  - now apply rst_step.
  - apply rst_sym. now apply rst_step.
Qed.

Lemma local_min_connected : forall G k, connected G k (local_min G k).
Proof.
  intros G k. destruct (local_min_cases G k) as [->|H].
  - apply rst_refl.
  - now apply neighbours_connected.
Qed.

Lemma step_of_edge_connected : forall s G a b,
  In (a, b) (fst (step_of s G)) -> connected G a b.
Proof.
  intros s G a b H. apply step_of_inv in H as [k [Hlt [-> Ha]]].
  apply rst_trans with k; [|apply local_min_connected].
  destruct Ha as [->|Ha]; [apply rst_refl|].
  apply rst_sym. now apply neighbours_connected.
Qed.

Lemma edge_connected_step_of : forall s G hi lo,
  In lo (neighbours G hi) -> lo < hi -> connected (fst (step_of s G)) hi lo.
Proof.
  intros s G hi lo Hn Hlt.
  assert (Hm : local_min G hi < hi).
  { pose proof (local_min_le_neighbour G hi lo Hn). lia. }
  pose proof (step_of_min s G hi Hm) as Hhi.
  destruct (Z.eq_dec lo (local_min G hi)) as [->|Hne].
  - now apply rst_step.
  - apply rst_trans with (local_min G hi); [now apply rst_step|].
    apply rst_sym, rst_step. now apply step_of_other.
Qed.

Lemma connected_step_of : forall s G a b,
  connected (fst (step_of s G)) a b <-> connected G a b.
Proof.
  intros s G a b. split; intros H.
  - induction H as [a b H| | |a b c _ IH1 _ IH2].
    + now apply (step_of_edge_connected s).
    + apply rst_refl.
    + now apply rst_sym.
    + now apply rst_trans with b.
  - induction H as [a b H| | |a b c _ IH1 _ IH2].
    + destruct (Z.lt_trichotomy a b) as [Hlt|[->|Hgt]].
      * apply rst_sym. apply edge_connected_step_of; auto.
        apply In_neighbours. now right.
      * apply rst_refl.
      * apply edge_connected_step_of; [|lia]. apply In_neighbours. now left.
    + apply rst_refl.
    + now apply rst_sym.
    + now apply rst_trans with b.
Qed.

Lemma run_connected : forall s G i G' j,
  run (step_of s) G i G' j -> forall a b, connected G' a b <-> connected G a b.
Proof.
  intros s G i G' j H. induction H as [G i Hz | G i G' j Hnz Hrun IH]; intros a b.
  - apply connected_step_of.
  - rewrite IH. apply connected_step_of.
Qed.

(** ** The converged edge list *)

Lemma step_of_converged_edge : forall s H a b,
  snd (step_of s H) = 0%nat ->
  (In (a, b) (fst (step_of s H)) <-> local_min H a < a /\ b = local_min H a).
Proof. intros s H a b Hz. apply converged_edge; auto; engine s. Qed.

Lemma step_of_converged_root : forall s H a b,
  snd (step_of s H) = 0%nat -> In (a, b) (fst (step_of s H)) ->
  forall c, ~ In (b, c) (fst (step_of s H)).
Proof.
  intros s H a b Hz Hin c Hc.
  assert (Hb : local_min H b = b).
  { apply (converged_target (step_of s)) with (a := a); auto; engine s. }
  apply step_of_converged_edge in Hc; auto. lia.
Qed.

Lemma converged_representative_edge : forall s H a b,
  snd (step_of s H) = 0%nat -> In (a, b) (fst (step_of s H)) ->
  representative (fst (step_of s H)) a = b /\
  representative (fst (step_of s H)) b = b.
Proof.
  intros s H a b Hz Hin. split.
  - destruct (representative_cases (fst (step_of s H)) a) as [[_ Hno]|Hr].
    + now apply Hno in Hin.
    + apply step_of_converged_edge in Hr, Hin; auto.
      destruct Hr as [_ ->], Hin as [_ ->]. reflexivity.
  - destruct (representative_cases (fst (step_of s H)) b) as [[E _]|Hr]; auto.
    now apply (step_of_converged_root s H a b Hz Hin) in Hr.
Qed.

Lemma converged_representative_connected : forall s H a b,
  snd (step_of s H) = 0%nat -> connected (fst (step_of s H)) a b ->
  representative (fst (step_of s H)) a = representative (fst (step_of s H)) b.
Proof.
  intros s H a b Hz Hc. induction Hc as [a b Hin| | |a b c _ IH1 _ IH2].
  - destruct (converged_representative_edge s H a b Hz Hin) as [-> ->]. reflexivity.
  - reflexivity.
  - now symmetry.
  - now rewrite IH1.
Qed.

Lemma representative_connected : forall G n, connected G n (representative G n).
Proof.
  intros G n. destruct (representative_cases G n) as [[-> _]|H].
  - apply rst_refl.
  - now apply rst_step.
Qed.

Lemma step_of_representative_le : forall s H n,
  representative (fst (step_of s H)) n <= n.
Proof.
  intros s H n.
  destruct (representative_cases (fst (step_of s H)) n) as [[-> _]|Hin]; [lia|].
  apply (step_le (step_of s)) in Hin; auto; engine s.
Qed.

(** What [process] returns, with the facts the later proofs start from. *)
Lemma process_converged : forall s E,
  exists G i H,
    process i E s = Returns (G, i) /\
    run (step_of s) E 0 G i /\
    snd (step_of s H) = 0%nat /\ G = fst (step_of s H).
Proof.
  intros s E. destruct (step_of_run_exists s E 0) as [G [i Hrun]].
  destruct (run_last _ _ _ _ _ Hrun) as [H [Hz HG]].
  exists G, i, H. repeat split; auto. now apply step_of_run_process.
Qed.

(** The pairs of a converged run are the pairs [(n, m)] in which [m] is
    the least node of the component of [n], and differs from [n]. *)
Lemma run_least : forall s E G i,
  run (step_of s) E 0 G i ->
  forall n,
    connected E n (representative G n) /\
    (forall m, connected E n m -> representative G n <= m).
Proof.
  intros s E G i Hrun n.
  destruct (run_last _ _ _ _ _ Hrun) as [H [Hz HG]]. split.
  - apply (run_connected s _ _ _ _ Hrun). apply representative_connected.
  - intros m Hm. apply (run_connected s _ _ _ _ Hrun) in Hm. subst G.
    rewrite (converged_representative_connected s H n m Hz Hm).
    apply step_of_representative_le.
Qed.

Lemma run_pairs : forall s E G i,
  run (step_of s) E 0 G i ->
  forall n m,
    In (n, m) G <->
    n <> m /\ connected E n m /\ (forall x, connected E n x -> m <= x).
Proof.
  intros s E G i Hrun n m.
  destruct (run_last _ _ _ _ _ Hrun) as [H [Hz HG]].
  destruct (run_least s E G i Hrun n) as [Hc Hmin]. split.
  - intros Hin.
    assert (Er : representative G n = m).
    { subst G. now apply (converged_representative_edge s H n m Hz Hin). }
    rewrite <- Er. repeat split; auto.
    rewrite Er. subst G. apply step_of_converged_edge in Hin; auto. lia.
  - intros [Hne [Hnm Hm]].
    assert (Er : representative G n = m).
    { apply Z.le_antisymm; [now apply Hmin | now apply Hm]. }
    destruct (representative_cases G n) as [[E0 _]|Hin]; congruence.
Qed.

(** X1.  Functional correctness of the driver: for every input and either
    variant, [process] returns an edge list in which the representative of
    every node [n] is the least node connected to [n] in the input: it is
    connected to [n], and no node connected to [n] is smaller.  The list
    holds exactly the pairs [(n, m)] where [m] is that least node and
    differs from [n]. *)
Theorem process_least_of_component : forall (sorting_flag : bool) (E : list edge),
  exists fuel G i,
    process fuel E sorting_flag = Returns (G, i) /\
    (forall n,
       connected E n (representative G n) /\
       (forall m, connected E n m -> representative G n <= m)) /\
    (forall n m,
       In (n, m) G <->
       n <> m /\ connected E n m /\ (forall x, connected E n x -> m <= x)).
Proof.
  intros s E. destruct (process_converged s E) as [G [i [H [Hp [Hrun _]]]]].
  exists i, G, i. split; auto. split.
  - now apply (run_least s E G i).
  - now apply (run_pairs s E G i).
Qed.

Lemma NoDup_map_fst : forall (l : list edge),
  NoDup l ->
  (forall a b b', In (a, b) l -> In (a, b') l -> b = b') ->
  NoDup (map fst l).
Proof.
  induction l as [|[a b] l IH]; intros Hnd Hfun; simpl; [constructor|].
  inversion Hnd as [|? ? Hnin Hnd']; subst. constructor.
  - intros Hin. apply in_map_iff in Hin as [[a' b'] [E Hin]]. simpl in E. subst a'.
    assert (b' = b) by (apply (Hfun a); simpl; auto). subst b'. contradiction.
  - apply IH; auto. intros a0 b0 b0' H1 H2. apply (Hfun a0); simpl; auto.
Qed.

Lemma connected_self_loops : forall G a b,
  (forall x y, In (x, y) G -> x = y) -> connected G a b -> a = b.
Proof.
  intros G a b Hl H. induction H as [a b H| | |a b c _ IH1 _ IH2]; auto.
  congruence.
Qed.

(** X2.  The edge list [process] returns is a mapping of depth one: no key
    occurs twice, every pair points from a node to a smaller one, and the
    node pointed to has no entry of its own. *)
Theorem process_output_mapping : forall (sorting_flag : bool) (E : list edge),
  exists fuel G i,
    process fuel E sorting_flag = Returns (G, i) /\
    NoDup (map fst G) /\
    forall a b, In (a, b) G -> b < a /\ ~ In b (map fst G).
Proof.
  intros s E. destruct (process_converged s E) as [G [i [H [Hp [Hrun [Hz HG]]]]]].
  exists i, G, i. split; auto. subst G. split.
  - apply NoDup_map_fst; [apply step_of_NoDup|].
    intros a b b' H1 H2. apply step_of_converged_edge in H1, H2; auto.
    destruct H1 as [_ ->], H2 as [_ ->]. reflexivity.
  - intros a b Hin. split.
    + apply step_of_converged_edge in Hin; auto. lia.
    + intros Hb. apply in_map_iff in Hb as [[b' c] [E' Hb]]. simpl in E'. subst b'.
      now apply (step_of_converged_root s H a b Hz Hin) in Hb.
Qed.

(** X3.  Which nodes [process] maps: a node has an entry in the returned
    edge list exactly when a smaller node is connected to it in the input.
    In particular the least node of a component, and a node that only
    occurs in self-loops, have no entry, and the result is empty exactly
    when every input edge is a self-loop. *)
Theorem process_output_keys : forall (sorting_flag : bool) (E : list edge),
  exists fuel G i,
    process fuel E sorting_flag = Returns (G, i) /\
    (forall n, In n (map fst G) <-> exists m, m < n /\ connected E n m) /\
    (G = [] <-> forall a b, In (a, b) E -> a = b).
Proof.
  intros s E. destruct (process_converged s E) as [G [i [H [Hp [Hrun [Hz HG]]]]]].
  exists i, G, i. split; auto.
  assert (Hkeys : forall n, In n (map fst G) <-> exists m, m < n /\ connected E n m).
  { intros n. split.
    - intros Hn. apply in_map_iff in Hn as [[n' b] [E' Hin]]. simpl in E'. subst n'.
      exists b. split.
      + subst G. apply step_of_converged_edge in Hin; auto. lia.
      + apply (run_connected s _ _ _ _ Hrun). now apply rst_step.
    - intros [m [Hlt Hc]]. apply (run_connected s _ _ _ _ Hrun) in Hc.
      destruct (representative_cases G n) as [[Er _]|Hin].
      + exfalso. subst G.
        pose proof (converged_representative_connected s H n m Hz Hc) as Em.
        pose proof (step_of_representative_le s H m). lia.
      + change n with (fst (n, representative G n)). now apply in_map. }
  split; auto. split.
  - intros -> a b Hin. destruct (Z.lt_trichotomy a b) as [Hlt|[Heq|Hgt]]; auto; exfalso.
    + apply (proj2 (Hkeys b)). exists a. split; auto.
      apply rst_sym. now apply rst_step.
    + apply (proj2 (Hkeys a)). exists b. split; [lia|]. now apply rst_step.
  - intros Hl. destruct G as [|[a b] G']; auto. exfalso.
    assert (Ha : In a (map fst ((a, b) :: G'))) by (simpl; auto).
    apply Hkeys in Ha as [m [Hlt Hc]].
    apply (connected_self_loops E a m Hl) in Hc. lia.
Qed.

(** ** One iteration *)


(** X5.  Every pair a job emits stays within two hops of the input: the
    pair [(a, b)] points to a node [b] that is the smallest neighbour of
    some key [k] and lies below [k], and [a] is [k] or a neighbour of [k];
    so a job never mentions a node the input does not mention. *)
Theorem iterate_emits_locally : forall (sorting_flag : bool) (E : list edge),
  exists G c,
    iterate sorting_flag E = Returns (G, c) /\
    (forall a b, In (a, b) G ->
       exists k, In b (neighbours E k) /\ b < k /\
                 (forall v, In v (neighbours E k) -> b <= v) /\
                 (a = k \/ In a (neighbours E k))) /\
    (forall n, In n (nodes G) -> In n (nodes E)).
Proof.
  intros s E. exists (fst (step_of s E)), (snd (step_of s E)). split; [|split].
  - rewrite iterate_step_of. now destruct (step_of s E).
  - intros a b Hin. apply step_of_inv in Hin as [k [Hlt [-> Ha]]].
    exists k. repeat split; auto.
    + now apply local_min_lt_in.
    + intros v Hv. now apply local_min_le_neighbour.
  - intros n Hn. apply (nodes_step (step_of s)) in Hn; auto; engine s.
Qed.

(** X6.  An iteration keeps the connected components: two nodes are
    connected by the pairs a job returns exactly when they are connected
    by the pairs it was given. *)
Theorem iterate_keeps_components : forall (sorting_flag : bool) (E : list edge),
  exists G c,
    iterate sorting_flag E = Returns (G, c) /\
    forall a b, connected G a b <-> connected E a b.
Proof.
  intros s E. exists (fst (step_of s E)), (snd (step_of s E)). split.
  - rewrite iterate_step_of. now destruct (step_of s E).
  - apply connected_step_of.
Qed.

(** X7.  What the convergence test detects.  The batch job reports zero
    new pairs exactly when every key that has a smaller neighbour has no
    other neighbour; the sorted job reports zero exactly when every such
    key is grouped with that single value, once. *)
Theorem zero_new_pairs_iff : forall E : list edge,
  (exists G c,
     CFF_iterate E = Returns (G, c) /\
     (c = 0%nat <->
      forall k v w, In v (neighbours E k) -> v < k -> In w (neighbours E k) -> w = v)) /\
  (exists G c,
     CFF_iterate_sorting E = Returns (G, c) /\
     (c = 0%nat <->
      forall k v, In v (neighbours E k) -> v < k -> neighbours E k = [v])).
Proof.
  intros E. split.
  - exists (fst (batch_step E)), (snd (batch_step E)). split.
    + rewrite CFF_iterate_batch. now destruct (batch_step E).
    + rewrite batch_count_zero. split.
      * intros Hs k v w Hv Hlt Hw.
        assert (Hm : local_min E k < k).
        { pose proof (local_min_le_neighbour E k v Hv). lia. }
        rewrite (Hs k v Hm Hv). now apply Hs.
      * intros Hs k v Hm Hv.
        apply (Hs k (local_min E k)); auto. now apply local_min_lt_in.
  - exists (fst (sorting_step E)), (snd (sorting_step E)). split.
    + rewrite CFF_iterate_sorting_sorting. now destruct (sorting_step E).
    + rewrite sorting_count_zero. split.
      * intros Hs k v Hv Hlt.
        assert (Hm : local_min E k < k).
        { pose proof (local_min_le_neighbour E k v Hv). lia. }
        specialize (Hs k Hm).
        pose proof (Permutation_length (sorted_Permutation (neighbours E k))) as Hlen.
        assert (Hne : neighbours E k <> []) by (intros E0; rewrite E0 in Hv; inversion Hv).
        rewrite (sorted_head _ Hne), Hs in Hlen. simpl in Hlen.
        destruct (neighbours E k) as [|x [|y t]]; simpl in Hlen; try discriminate.
        destruct Hv as [->|[]]. reflexivity.
      * intros Hs k Hm. apply rest_sorted_short.
        rewrite (Hs k (local_min E k)); auto. now apply local_min_lt_in.
Qed.

(** ** The driver *)

Lemma potential_slack : forall lo L G,
  potential L G - lo * Z.of_nat (length L) <= slack lo L.
Proof.
  unfold potential, slack. induction L as [|x L IH]; intros G; simpl length; simpl.
  - lia.
  - specialize (IH G). pose proof (local_min_le G x). lia.
Qed.

Lemma slack_nonneg : forall lo L, (forall x, In x L -> lo <= x) -> 0 <= slack lo L.
Proof.
  unfold slack. induction L as [|x L IH]; intros H; simpl; [lia|].
  specialize (IH (fun y Hy => H y (or_intror Hy))).
  specialize (H x (or_introl eq_refl)). lia.
Qed.

(** X8.  A bound on the number of iterations: when [lo] is below every
    node of the input, [process] exits after at most two iterations more
    than the total distance of the distinct nodes above [lo]. *)
Theorem process_iteration_bound : forall (sorting_flag : bool) (E : list edge) (lo : Z),
  (forall x, In x (nodes E) -> lo <= x) ->
  exists G i,
    process (Z.to_nat (slack lo (nodup Z.eq_dec (nodes E))) + 2) E sorting_flag
      = Returns (G, i) /\
    (i <= Z.to_nat (slack lo (nodup Z.eq_dec (nodes E))) + 2)%nat.
Proof.
  intros s E lo Hlo. set (L := nodup Z.eq_dec (nodes E)).
  assert (HL : forall x, In x L -> lo <= x).
  { intros x Hx. apply Hlo. now apply nodup_In in Hx. }
  destruct (run_exists_bounded (step_of s) (step_of_min s) (step_of_other s)
              (step_of_inv s) (step_of_NoDup s) (step_of_zero_intro s) L lo HL
              (Z.to_nat (slack lo L)) E 0%nat)
    as [G [i [Hrun Hi]]].
  - intros x Hx. now apply nodup_In.
  - pose proof (potential_slack lo L E). pose proof (slack_nonneg lo L HL). lia.
  - exists G, i. split; [|lia].
    apply (process_more_fuel s i); [now apply step_of_run_process | lia].
Qed.

Lemma process_iteration_bound_witness :
  exists G i,
    process (Z.to_nat (slack 1 (nodup Z.eq_dec (nodes [(1, 2); (2, 3)]))) + 2)
            [(1, 2); (2, 3)] false = Returns (G, i) /\
    (i <= Z.to_nat (slack 1%Z (nodup Z.eq_dec (nodes [(1, 2); (2, 3)]%Z))) + 2)%nat.
Proof.
  apply (process_iteration_bound false [(1, 2); (2, 3)] 1).
  intros x Hx. simpl in Hx. lia.
Defined.

(** X9.  Neither the order of the input pairs nor the direction in which
    an edge is written matters: a reordered input, and the input with
    every pair reversed, converge to the same pairs as the input. *)
Theorem process_ignores_order_and_direction :
  forall (sorting_flag : bool) (E E' : list edge),
  Permutation E E' ->
  exists fuel G i G' i' G'' i'',
    process fuel E sorting_flag = Returns (G, i) /\
    process fuel E' sorting_flag = Returns (G', i') /\
    process fuel (map (fun x => (snd x, fst x)) E) sorting_flag = Returns (G'', i'') /\
    same_edges G G' /\ same_edges G G''.
Proof.
  intros s E E' HP.
  destruct (step_of_run_exists s E 0) as [G [i Hrun]].
  destruct (step_of_run_exists s E' 0) as [G' [i' Hrun']].
  destruct (step_of_run_exists s (map (fun x => (snd x, fst x)) E) 0)
    as [G'' [i'' Hrun'']].
  exists (Nat.max i (Nat.max i' i'')), G, i, G', i', G'', i''.
  split; [|split; [|split; [|split]]].
  - apply (process_more_fuel s i); [now apply step_of_run_process | lia].
  - apply (process_more_fuel s i'); [now apply step_of_run_process | lia].
  - apply (process_more_fuel s i''); [now apply step_of_run_process | lia].
  - apply (same_graph_same_result s E E' G i G' i'); auto.
    intros k v. rewrite !In_neighbours.
    split; intros [H|H]; [left|right|left|right];
      first [now apply (Permutation_in _ HP)
            | now apply (Permutation_in _ (Permutation_sym HP))].
  - apply (same_graph_same_result s E (map (fun x => (snd x, fst x)) E) G i G'' i''); auto.
    intros k v. rewrite !In_neighbours, !in_map_iff. split.
    + intros [H|H]; [right; now exists (k, v) | left; now exists (v, k)].
    + intros [[[a b] [E0 H]]|[[a b] [E0 H]]]; simpl in E0; inversion E0; subst; auto.
Qed.

Lemma process_ignores_order_and_direction_witness :
  exists fuel G i G' i' G'' i'',
    process fuel [(1, 2); (2, 3)] true = Returns (G, i) /\
    process fuel [(2, 3); (1, 2)] true = Returns (G', i') /\
    process fuel (map (fun x => (snd x, fst x)) [(1, 2); (2, 3)]) true
      = Returns (G'', i'') /\
    same_edges G G' /\ same_edges G G''.
Proof.
  apply (process_ignores_order_and_direction true [(1, 2); (2, 3)] [(2, 3); (1, 2)]).
  apply perm_swap.
Defined.

(** ** Sums over groups *)

Lemma list_sum_map_add : forall {A} (f h : A -> nat) (l : list A),
  list_sum (map (fun x => (f x + h x)%nat) l) =
  (list_sum (map f l) + list_sum (map h l))%nat.
Proof. induction l as [|x l IH]; simpl; lia. Qed.

Lemma list_sum_select : forall {K} (dec : forall x y : K, {x = y} + {x <> y})
    (a : K) (c : K -> nat) (ks : list K),
  NoDup ks -> In a ks ->
  list_sum (map (fun k => if dec a k then c k else 0%nat) ks) = c a.
Proof.
  intros K dec a c ks Hnd. induction Hnd as [|k ks Hnin Hnd IH]; intros Hin.
  - inversion Hin.
  - simpl. destruct (dec a k) as [->|Hne].
    + assert (E : list_sum (map (fun k0 => if dec k k0 then c k0 else 0%nat) ks) = 0%nat).
      { apply list_sum_zero. intros n Hn. apply in_map_iff in Hn as [k' [<- Hk']].
        destruct (dec k k') as [->|]; [contradiction | reflexivity]. }
      rewrite E. lia.
    + destruct Hin as [->|Hin]; [congruence|]. now rewrite IH.
Qed.

Lemma values_of_cons : forall {K V} (dec : forall x y : K, {x = y} + {x <> y})
    (k a : K) (b : V) l,
  values_of dec k ((a, b) :: l) =
  if dec a k then b :: values_of dec k l else values_of dec k l.
Proof. intros. unfold values_of. simpl. now destruct (dec a k). Qed.

Lemma partition_sum : forall {K V} (dec : forall x y : K, {x = y} + {x <> y})
    (g : K -> V -> nat) (l : list (K * V)) (ks : list K),
  NoDup ks -> (forall kv, In kv l -> In (fst kv) ks) ->
  list_sum (map (fun k => list_sum (map (g k) (values_of dec k l))) ks) =
  list_sum (map (fun kv => g (fst kv) (snd kv)) l).
Proof.
  intros K V dec g l ks Hnd. induction l as [|[a b] l IH]; intros Hin.
  - simpl. apply list_sum_zero. intros n Hn.
    apply in_map_iff in Hn as [k [<- _]]. reflexivity.
  - simpl.
    rewrite (map_ext _ (fun k => ((if dec a k then g k b else 0) +
                                  list_sum (map (g k) (values_of dec k l)))%nat)).
    + rewrite list_sum_map_add, IH by (intros kv Hkv; apply Hin; now right).
      rewrite (list_sum_select dec a (fun k => g k b) ks Hnd); auto.
      apply (Hin (a, b)). now left.
    + intros k. rewrite values_of_cons. now destruct (dec a k).
Qed.

Lemma groupByKey_sum : forall {K V} (dec : forall x y : K, {x = y} + {x <> y})
    (g : K -> V -> nat) (l : list (K * V)),
  list_sum (map (fun kvs => list_sum (map (g (fst kvs)) (snd kvs))) (groupByKey dec l)) =
  list_sum (map (fun kv => g (fst kv) (snd kv)) l).
Proof.
  intros K V dec g l. unfold groupByKey. rewrite map_map. simpl.
  apply partition_sum; [apply NoDup_nodup|].
  intros kv Hkv. apply nodup_In. now apply in_map.
Qed.

Lemma groupByKey_nonempty : forall {K V} (dec : forall x y : K, {x = y} + {x <> y})
    (l : list (K * V)) kvs,
  In kvs (groupByKey dec l) -> snd kvs <> [].
Proof.
  intros K V dec l kvs H. unfold groupByKey in H.
  apply in_map_iff in H as [k [<- Hk]]. simpl.
  apply nodup_In, in_map_iff in Hk as [[k' v] [<- Hin]]. simpl.
  intros E. assert (Hv : In v (values_of dec k' l)) by now apply In_values_of.
  rewrite E in Hv. inversion Hv.
Qed.

Lemma list_sum_ones : forall {A} (l : list A),
  list_sum (map (fun _ => 1%nat) l) = length l.
Proof. induction l as [|x l IH]; simpl; lia. Qed.

(** X10.  The pair emitter and the grouping lose nothing: in the adjacency
    records both jobs start from, every key occurs once, every record
    holds at least one value, a value [v] is recorded for key [k] exactly
    when the input holds [(k, v)] or [(v, k)], and the records hold twice
    as many values as the input has pairs. *)
Theorem adjacency_complete : forall E : list edge,
  NoDup (map fst (adjacency E)) /\
  (forall k V, In (k, V) (adjacency E) -> V <> []) /\
  (forall k v, (exists V, In (k, V) (adjacency E) /\ In v V) <->
               In (k, v) E \/ In (v, k) E) /\
  list_sum (map (fun x => length (snd x)) (adjacency E)) = (2 * length E)%nat.
Proof.
  intros E. split; [|split; [|split]].
  - rewrite adjacency_records, map_map. simpl. rewrite map_id. apply NoDup_nodup.
  - intros k V H. apply In_adjacency in H. tauto.
  - intros k v. rewrite <- In_neighbours. split.
    + intros [V [H Hv]]. apply In_adjacency in H as [-> _]. exact Hv.
    + intros Hv. exists (neighbours E k). split; auto. apply In_adjacency.
      split; auto. intros E0. rewrite E0 in Hv. inversion Hv.
  - pose proof (groupByKey_sum Z.eq_dec (fun (_ _ : Z) => 1%nat)
                  (E ++ map (fun x => (snd x, fst x)) E)) as H.
    simpl in H. rewrite list_sum_ones, length_app, length_map in H.
    rewrite (map_ext _ (fun kvs : Z * list Z => length (snd kvs))) in H
      by (intros x; apply list_sum_ones).
    unfold adjacency, cache, partitionBy, mapValues, py_list.
    rewrite map_map. simpl. rewrite H. unfold edge. lia.
Qed.

(** ** Reading the result: number and size of the components *)

(** X11.  The number of components the notebook prints: on the edge list
    [process] returns, [n_components] is the number of least nodes of
    components that have at least two nodes (a node that is alone, or only
    in self-loops, is not counted). *)
Theorem n_components_counts_least_nodes : forall (sorting_flag : bool) (E : list edge),
  exists fuel G i roots,
    process fuel E sorting_flag = Returns (G, i) /\
    NoDup roots /\
    n_components G = length roots /\
    forall m, In m roots <->
              (exists n, n <> m /\ connected E m n) /\
              (forall x, connected E m x -> m <= x).
Proof.
  intros s E. destruct (process_converged s E) as [G [i [H [Hp [Hrun _]]]]].
  exists i, G, i, (rdd_distinct (map (fun x => snd x) G)).
  split; auto. split; [apply NoDup_nodup|]. split; [reflexivity|].
  intros m. unfold rdd_distinct. rewrite nodup_In, in_map_iff. split.
  - intros [[n m'] [E0 Hin]]. simpl in E0. subst m'.
    apply (run_pairs s E G i Hrun) in Hin as [Hne [Hc Hmin]]. split.
    + exists n. split; auto. now apply rst_sym.
    + intros x Hx. apply Hmin. now apply rst_trans with m.
  - intros [[n [Hne Hc]] Hmin]. exists (n, m). split; auto.
    apply (run_pairs s E G i Hrun). repeat split; auto.
    + now apply rst_sym.
    + intros x Hx. apply Hmin. now apply rst_trans with n.
Qed.

Lemma fold_max_ge_init : forall l x, (x <= fold_left Nat.max l x)%nat.
Proof.
  induction l as [|y l IH]; intros x; simpl; [lia|].
  specialize (IH (Nat.max x y)). lia.
Qed.

Lemma fold_max_ge_in : forall l x y, In y l -> (y <= fold_left Nat.max l x)%nat.
Proof.
  induction l as [|z l IH]; intros x y Hy; simpl in *; [tauto|].
  destruct Hy as [->|Hy].
  - pose proof (fold_max_ge_init l (Nat.max x y)). lia.
  - now apply IH.
Qed.

Lemma fold_max_cases : forall l x,
  fold_left Nat.max l x = x \/ In (fold_left Nat.max l x) l.
Proof.
  induction l as [|y l IH]; intros x; simpl; [now left|].
  destruct (IH (Nat.max x y)) as [E|HI]; [|now right; right].
  rewrite E. destruct (Nat.max_spec x y) as [[_ ->]|[_ ->]]; auto.
Qed.

Lemma rdd_max_spec : forall l,
  (l = [] /\ rdd_max l = Raises ValueError) \/
  (exists M, rdd_max l = Returns M /\ In M l /\ forall x, In x l -> (x <= M)%nat).
Proof.
  intros [|x xs]; [now left|]. right. exists (fold_left Nat.max xs x).
  split; [reflexivity|]. split.
  - destruct (fold_max_cases xs x) as [->|H]; simpl; auto.
  - intros y [<-|Hy]; [apply fold_max_ge_init | now apply fold_max_ge_in].
Qed.

(** The pairs of [output] that share the value [m]. *)
Lemma groupBy_value : forall (output : list edge) m,
  values_of Z.eq_dec m (map (fun x => (snd x, x)) output) =
  filter (fun x => if Z.eq_dec (snd x) m then true else false) output.
Proof.
  intros output m. unfold values_of. induction output as [|e l IH]; simpl; auto.
  destruct (Z.eq_dec (snd e) m); simpl; now rewrite IH.
Qed.

Lemma groupBy_sizes : forall output : list edge,
  map (fun x => length (snd x)) (groupBy Z.eq_dec (fun x => snd x) output) =
  map (fun m => length (filter (fun x => if Z.eq_dec (snd x) m then true else false)
                               output))
      (nodup Z.eq_dec (map snd output)).
Proof.
  intros output. unfold groupBy, groupByKey. rewrite !map_map. simpl.
  apply map_ext. intros m. now rewrite groupBy_value.
Qed.

Lemma NoDup_length_filter : forall (C : list Z) r,
  NoDup C -> (length C <= S (length (filter (fun c => negb (c =? r)%Z) C)))%nat.
Proof.
  intros C r Hnd. pose proof (Permutation_length (partition_minimum C r)) as E.
  rewrite length_app, repeat_length in E.
  pose proof (proj1 (NoDup_count_occ Z.eq_dec C) Hnd r). lia.
Qed.

(** X12.  The size of the largest component the notebook prints.  On the
    edge list [G] that [process] returns, both cells raise [ValueError]
    when [G] is empty (every input edge is a self-loop).  Otherwise the
    cell of the naive version returns the number [L] of nodes of a largest
    connected component of the input: some [L] distinct nodes are
    connected with one another, and no more than [L] distinct nodes ever
    are.  The cell of the version with secondary sorting, which omits the
    [+ 1], returns [L - 1]. *)
Theorem largest_component_is_largest : forall (sorting_flag : bool) (E : list edge),
  exists fuel G i,
    process fuel E sorting_flag = Returns (G, i) /\
    (G = [] ->
     largest_component G = Raises ValueError /\
     largest_component_sorting G = Raises ValueError) /\
    (G <> [] ->
     exists L,
       largest_component G = Returns L /\
       largest_component_sorting G = Returns (L - 1)%nat /\
       (exists C, NoDup C /\ length C = L /\
                  forall a b, In a C -> In b C -> connected E a b) /\
       (forall C, NoDup C ->
                  (forall a b, In a C -> In b C -> connected E a b) ->
                  (length C <= L)%nat)).
Proof.
  intros s E. destruct (process_converged s E) as [G [i [H [Hp [Hrun [Hz HG]]]]]].
  exists i, G, i. split; auto. split; [intros ->; split; reflexivity|].
  intros Hne.
  assert (HndG : NoDup G) by (subst G; apply step_of_NoDup).
  pose proof (run_pairs s E G i Hrun) as Hpairs.
  pose proof (run_least s E G i Hrun) as Hleast.
  set (grp := fun m => filter (fun x : edge => if Z.eq_dec (snd x) m then true else false) G).
  assert (Hgrp : forall m n, In n (map fst (grp m)) <-> In (n, m) G).
  { intros m n. unfold grp. rewrite in_map_iff. split.
    - intros [[n' b] [E0 Hin]]. simpl in E0. subst n'.
      apply filter_In in Hin as [Hin Hb]. simpl in Hb.
      destruct (Z.eq_dec b m); [now subst | discriminate].
    - intros Hin. exists (n, m). split; auto. apply filter_In. split; auto.
      simpl. destruct (Z.eq_dec m m); congruence. }
  unfold largest_component, largest_component_sorting.
  assert (Hsz : map (fun x => length (snd x)) (groupBy Z.eq_dec (fun x => snd x) G) =
                map (fun m => length (grp m)) (nodup Z.eq_dec (map snd G)))
    by apply groupBy_sizes.
  rewrite Hsz.
  destruct (rdd_max_spec (map (fun m => length (grp m)) (nodup Z.eq_dec (map snd G))))
    as [[E0 _]|[M [Hr [HM Hmax]]]].
  { exfalso. destruct G as [|e G']; [congruence|].
    apply map_eq_nil in E0.
    assert (Hin : In (snd e) (nodup Z.eq_dec (map snd (e :: G'))))
      by (apply nodup_In; simpl; auto).
    rewrite E0 in Hin. inversion Hin. }
  rewrite Hr. simpl. exists (M + 1)%nat.
  split; [reflexivity|]. split; [now rewrite Nat.add_sub|]. split.
  - apply in_map_iff in HM as [m [HM Hm]].
    exists (m :: map fst (grp m)). split; [|split].
    + constructor.
      * intros Hin. apply Hgrp, Hpairs in Hin. tauto.
      * apply NoDup_map_fst; [now apply NoDup_filter|].
        intros a b b' H1 H2. unfold grp in H1, H2.
        apply filter_In in H1 as [_ H1], H2 as [_ H2]. simpl in H1, H2.
        destruct (Z.eq_dec b m), (Z.eq_dec b' m); congruence.
    + simpl. rewrite length_map. unfold edge in *. lia.
    + assert (Hc : forall a, In a (m :: map fst (grp m)) -> connected E a m).
      { intros a [<-|Ha]; [apply rst_refl|]. apply Hgrp, Hpairs in Ha. tauto. }
      intros a b Ha Hb. apply rst_trans with m; [|apply rst_sym]; now apply Hc.
  - intros C HndC HC.
    destruct C as [|c0 C']; [simpl; lia|].
    set (C := c0 :: C') in *. set (r := representative G c0).
    pose proof (NoDup_length_filter C r HndC) as Hlen.
    assert (Hincl : incl (filter (fun c => negb (c =? r)) C) (map fst (grp r))).
    { intros c Hc. apply filter_In in Hc as [Hc Hcr].
      apply negb_true_iff, Z.eqb_neq in Hcr.
      apply Hgrp, Hpairs. split; auto.
      assert (Hc0 : connected E c c0) by (apply HC; auto; now left).
      destruct (Hleast c0) as [Hr0 Hmin0]. fold r in Hr0, Hmin0. split.
      - now apply rst_trans with c0.
      - intros x Hx. apply Hmin0. apply rst_trans with c; auto. now apply rst_sym. }
    pose proof (NoDup_incl_length (NoDup_filter _ HndC) Hincl) as Hle.
    rewrite length_map in Hle.
    destruct (filter (fun c => negb (c =? r)) C) as [|c1 F] eqn:EF.
    + simpl in Hlen. unfold C. simpl. lia.
    + assert (Hc1 : In c1 (map fst (grp r))) by (apply Hincl; now left).
      apply Hgrp in Hc1.
      assert (Hroot : In r (nodup Z.eq_dec (map snd G))).
      { apply nodup_In. change r with (snd (c1, r)). now apply in_map. }
      assert (length (grp r) <= M)%nat.
      { apply Hmax. apply in_map_iff. now exists r. }
      unfold edge in *. lia.
Qed.

(** ** Reading the result: the size distribution *)

Lemma fold_left_add : forall vs v,
  fold_left (fun x y => (x + y)%nat) vs v = (v + list_sum vs)%nat.
Proof.
  induction vs as [|w vs IH]; intros v; simpl; [lia|]. rewrite IH. lia.
Qed.

Lemma list_sum_map_mul : forall c l,
  (c * list_sum l)%nat = list_sum (map (fun v => (c * v)%nat) l).
Proof. induction l as [|x l IH]; simpl; lia. Qed.

Lemma In_reduceByKey : forall {K V} (dec : forall x y : K, {x = y} + {x <> y})
    (f : V -> V -> V) (l : list (K * V)) k c,
  In (k, c) (reduceByKey dec f l) ->
  exists v vs, values_of dec k l = v :: vs /\ c = fold_left f vs v.
Proof.
  intros K V dec f l k c H. unfold reduceByKey, groupByKey in H.
  apply in_flat_map in H as [[k' vs'] [Hg Hin]].
  apply in_map_iff in Hg as [k'' [E0 _]]. inversion E0; subst k' vs'. simpl in Hin.
  destruct (values_of dec k'' l) as [|v vs] eqn:Ev; [inversion Hin|].
  destruct Hin as [E1|[]]. inversion E1; subst k''. rewrite Ev. now exists v, vs.
Qed.

Lemma reduceByKey_keys : forall {K V} (dec : forall x y : K, {x = y} + {x <> y})
    (f : V -> V -> V) (l : list (K * V)),
  map fst (reduceByKey dec f l) = nodup dec (map fst l).
Proof.
  intros K V dec f l. unfold reduceByKey, groupByKey.
  assert (Hks : forall k, In k (nodup dec (map fst l)) -> values_of dec k l <> []).
  { intros k Hk. apply nodup_In, in_map_iff in Hk as [[k' v] [<- Hin]]. simpl.
    intros E0. assert (Hv : In v (values_of dec k' l)) by now apply In_values_of.
    rewrite E0 in Hv. inversion Hv. }
  induction (nodup dec (map fst l)) as [|k ks IH]; simpl; auto.
  destruct (values_of dec k l) as [|v vs] eqn:Ev.
  - exfalso. apply (Hks k); simpl; auto.
  - simpl. f_equal. apply IH. intros k' Hk'. apply Hks. now right.
Qed.

Lemma reduceByKey_add_sum : forall {K} (dec : forall x y : K, {x = y} + {x <> y})
    (h : K -> nat) (l : list (K * nat)),
  list_sum (map (fun kv => (h (fst kv) * snd kv)%nat)
                (reduceByKey dec (fun x y => (x + y)%nat) l)) =
  list_sum (map (fun kv => (h (fst kv) * snd kv)%nat) l).
Proof.
  intros K dec h l.
  rewrite <- (partition_sum dec (fun k v => (h k * v)%nat) l (nodup dec (map fst l)))
    by (try apply NoDup_nodup; intros kv Hkv; apply nodup_In; now apply in_map).
  unfold reduceByKey, groupByKey.
  induction (nodup dec (map fst l)) as [|k ks IH]; simpl; auto.
  rewrite map_app, list_sum_app, IH. f_equal.
  destruct (values_of dec k l) as [|v vs]; simpl; auto.
  rewrite fold_left_add, <- list_sum_map_mul. lia.
Qed.

(** X13.  The size distribution accounts for every component and every
    pair: for any result list, the counts [Y] add up to [n_components],
    the sizes [X] weighted by their counts add up to the number of pairs,
    no size is listed twice, and every size and every count is at least
    one. *)
Theorem cc_totals : forall output : list edge,
  list_sum (Y output) = n_components output /\
  list_sum (map (fun x => (fst x * snd x)%nat) (cc output)) = length output /\
  NoDup (X output) /\
  (forall size count, In (size, count) (cc output) -> (1 <= size /\ 1 <= count)%nat).
Proof.
  intros output.
  set (swapped := map (fun x : edge => (snd x, fst x)) output).
  set (l := map (fun x : Z * list Z => (length (snd x), 1%nat))
                (mapValues py_list (groupByKey Z.eq_dec swapped))).
  assert (Hcc : cc output = reduceByKey Nat.eq_dec (fun x y => (x + y)%nat) l)
    by reflexivity.
  assert (Hgroups : mapValues py_list (groupByKey Z.eq_dec swapped) =
                    groupByKey Z.eq_dec swapped).
  { unfold mapValues, py_list. rewrite <- (map_id (groupByKey _ _)) at 2.
    apply map_ext. now intros [k V]. }
  split; [|split; [|split]].
  - unfold Y. rewrite Hcc.
    pose proof (reduceByKey_add_sum Nat.eq_dec (fun _ => 1%nat) l) as Hs.
    rewrite (map_ext _ (fun x : nat * nat => snd x)) in Hs by (intros x; lia).
    rewrite Hs. unfold l. rewrite map_map. simpl. rewrite list_sum_ones.
    rewrite Hgroups. unfold groupByKey. rewrite length_map.
    unfold n_components, rdd_count, rdd_distinct, swapped. now rewrite map_map.
  - rewrite Hcc.
    rewrite (reduceByKey_add_sum Nat.eq_dec (fun k => k) l).
    unfold l. rewrite map_map. simpl. rewrite Hgroups.
    pose proof (groupByKey_sum Z.eq_dec (fun (_ _ : Z) => 1%nat) swapped) as Hs.
    simpl in Hs. rewrite list_sum_ones in Hs.
    rewrite (map_ext _ (fun x : Z * list Z => (length (snd x) * 1)%nat)) in Hs
      by (intros x; rewrite list_sum_ones; lia).
    rewrite Hs. unfold swapped. now rewrite length_map.
  - unfold X. rewrite Hcc.
    change (map (fun x : nat * nat => fst x)) with (@map (nat * nat) nat fst).
    rewrite reduceByKey_keys. apply NoDup_nodup.
  - intros size count Hin. rewrite Hcc in Hin.
    apply In_reduceByKey in Hin as [v [vs [Ev ->]]].
    assert (Hv : In v (values_of Nat.eq_dec size l)) by (rewrite Ev; now left).
    apply In_values_of in Hv. unfold l in Hv.
    apply in_map_iff in Hv as [x [E0 Hx]]. inversion E0; subst.
    rewrite Hgroups in Hx. apply groupByKey_nonempty in Hx.
    rewrite fold_left_add. split; [|lia].
    destruct (snd x); [congruence | simpl; lia].
Qed.

(** ** Data preparation *)

Lemma contains_char_app : forall c a b,
  contains_char c (a ++ b)%string = contains_char c a || contains_char c b.
Proof.
  induction a as [|d a IH]; intros b; simpl; auto.
  destruct (Ascii.eqb d c); auto.
Qed.

Lemma split_not_nil : forall sep x, split sep x <> [].
Proof.
  intros sep [|c x]; simpl; [discriminate|].
  destruct (Ascii.eqb c sep); [discriminate|].
  destruct (split sep x); discriminate.
Qed.

Lemma split_no_sep : forall sep a, contains_char sep a = false -> split sep a = [a].
Proof.
  induction a as [|c a IH]; simpl; intros H; auto.
  destruct (Ascii.eqb c sep); [discriminate|]. now rewrite IH.
Qed.

Lemma split_app_sep : forall sep a rest,
  contains_char sep a = false ->
  split sep (a ++ String sep rest)%string = a :: split sep rest.
Proof.
  induction a as [|c a IH]; simpl; intros rest H.
  - now rewrite Ascii.eqb_refl.
  - destruct (Ascii.eqb c sep); [discriminate|]. now rewrite IH.
Qed.

Lemma split_two_fields : forall sep x,
  contains_char sep x = true -> exists f0 f1 fs, split sep x = f0 :: f1 :: fs.
Proof.
  induction x as [|c x IH]; simpl; intros H; [discriminate|].
  destruct (Ascii.eqb c sep).
  - destruct (split sep x) as [|f fs] eqn:E; [now apply split_not_nil in E|].
    now exists EmptyString, f, fs.
  - destruct (IH H) as [f0 [f1 [fs ->]]]. now exists (String c f0), f1, fs.
Qed.

Lemma split_fields : forall sep c x f,
  In f (split sep x) ->
  contains_char sep f = false /\
  (contains_char c x = false -> contains_char c f = false).
Proof.
  induction x as [|d x IH]; simpl; intros f Hf.
  - destruct Hf as [<-|[]]. auto.
  - destruct (Ascii.eqb d sep) eqn:Ed.
    + destruct Hf as [<-|Hf]; [simpl; split; auto|].
      destruct (IH f Hf) as [H1 H2]. split; auto.
      intros H. apply H2. now destruct (Ascii.eqb d c).
    + destruct (split sep x) as [|g gs] eqn:E; [now apply split_not_nil in E|].
      destruct Hf as [<-|Hf].
      * destruct (IH g (or_introl eq_refl)) as [H1 H2]. simpl. rewrite Ed.
        split; auto. intros H. destruct (Ascii.eqb d c); [discriminate|]. auto.
      * destruct (IH f (or_intror Hf)) as [H1 H2]. split; auto.
        intros H. apply H2. now destruct (Ascii.eqb d c).
Qed.

Lemma clean_lines : forall entries : list (string * string * option string),
  (forall a b more, In (a, b, more) entries ->
     contains_char tab a = false /\ contains_char tab b = false) ->
  map_raising (fun x => x0 <- py_index x 0 ;; x1 <- py_index x 1 ;; Returns (x0, x1))
              (map (fun x => split tab x) (map line_of entries)) =
  Returns (map (fun e => (fst (fst e), snd (fst e))) entries).
Proof.
  induction entries as [|[[a b] more] entries IH]; intros H; [reflexivity|].
  destruct (H a b more (or_introl eq_refl)) as [Ha Hb].
  simpl map. cbn [map_raising].
  rewrite IH by (intros a' b' m' Hin; apply (H a' b' m'); now right).
  destruct more as [e|]; simpl line_of.
  - rewrite (split_app_sep tab a _ Ha), (split_app_sep tab b _ Hb). reflexivity.
  - rewrite (split_app_sep tab a _ Ha), (split_no_sep tab b Hb). reflexivity.
Qed.

(** X14.  Reading a well-formed file: when every header line holds a [#]
    and every data line consists of two tab-free fields separated by a
    tab, possibly followed by a tab and further text, and holds no [#],
    [clean_data] returns the pairs of the first two fields of the data
    lines, in order. *)
Theorem clean_data_reads_lines :
  forall (header : list string) (entries : list (string * string * option string)),
  (forall h, In h header -> contains_char hash h = true) ->
  (forall a b more, In (a, b, more) entries ->
     contains_char tab a = false /\ contains_char tab b = false /\
     contains_char hash (line_of (a, b, more)) = false) ->
  clean_data (header ++ map line_of entries) =
  Returns (map (fun e => (fst (fst e), snd (fst e))) entries).
Proof.
  intros header entries Hh He. unfold clean_data.
  rewrite filter_app.
  assert (E1 : filter (fun x => negb (contains_char hash x)) header = []).
  { induction header as [|h header IH]; simpl; auto.
    rewrite (Hh h) by now left. simpl. apply IH. intros; apply Hh; now right. }
  assert (E2 : filter (fun x => negb (contains_char hash x)) (map line_of entries) =
               map line_of entries).
  { clear Hh E1. induction entries as [|[[a b] more] entries IH]; auto.
    cbn [map filter].
    destruct (He a b more (or_introl eq_refl)) as [_ [_ ->]]. simpl. f_equal.
    apply IH. intros a' b' m' Hin. apply He. now right. }
  rewrite E1, E2. simpl. apply clean_lines.
  intros a b more Hin. destruct (He a b more Hin) as [Ha [Hb _]]. auto.
Qed.

Lemma clean_data_reads_lines_witness :
  clean_data (["# FromNodeId" ++ String tab "ToNodeId"]%string ++
              map line_of [("0", "11342", None); ("0", "824020", Some "x")]%string) =
  Returns [("0", "11342"); ("0", "824020")]%string.
Proof.
  apply (clean_data_reads_lines
           (["# FromNodeId" ++ String tab "ToNodeId"]%string)
           ([("0", "11342", None); ("0", "824020", Some "x")]%string)).
  - intros h [<-|[]]. reflexivity.
  - intros a b more [E|[E|[]]]; inversion E; subst; repeat split; reflexivity.
Defined.

(** X15.  The outcome of [clean_data] on any file.  A line that holds a
    [#] anywhere is dropped.  If some remaining line holds no tab, the
    evaluation raises [IndexError]; otherwise it returns one pair per
    remaining line, and the two fields of every pair hold neither a tab
    nor a [#]. *)
Theorem clean_data_outcome : forall raw_data : list string,
  if existsb (fun x => negb (contains_char hash x) && negb (contains_char tab x)) raw_data
  then clean_data raw_data = Raises IndexError
  else exists data,
      clean_data raw_data = Returns data /\
      length data = length (filter (fun x => negb (contains_char hash x)) raw_data) /\
      forall a b, In (a, b) data ->
        contains_char tab a = false /\ contains_char tab b = false /\
        contains_char hash a = false /\ contains_char hash b = false.
Proof.
  unfold clean_data. induction raw_data as [|x raw IH]; simpl.
  - exists []. split; [reflexivity|]. split; [reflexivity|]. intros a b [].
  - destruct (contains_char hash x) eqn:Hx; simpl; [exact IH|].
    destruct (contains_char tab x) eqn:Tx; simpl.
    + destruct (split_two_fields tab x Tx) as [f0 [f1 [fs Es]]].
      assert (Hf : forall f, In f [f0; f1] ->
                             contains_char tab f = false /\ contains_char hash f = false).
      { intros f Hf. assert (Hin : In f (split tab x)).
        { rewrite Es. destruct Hf as [<-|[<-|[]]]; simpl; auto. }
        destruct (split_fields tab hash x f Hin) as [H1 H2]. auto. }
      rewrite Es. unfold py_index at 1 2. simpl.
      destruct (existsb _ raw).
      * rewrite IH. reflexivity.
      * destruct IH as [data [-> [Hlen Hdata]]]. simpl.
        exists ((f0, f1) :: data). split; auto. split; [simpl; now rewrite Hlen|].
        intros a b [E|Hin]; [|now apply Hdata].
        inversion E; subst.
        destruct (Hf a (or_introl eq_refl)), (Hf b (or_intror (or_introl eq_refl))).
        auto.
    + rewrite (split_no_sep tab x Tx). reflexivity.
Qed.

(** ** More on the two variants *)

Lemma covers_same_neighbours : forall E E',
  (forall a b, In (a, b) E \/ In (b, a) E <-> In (a, b) E' \/ In (b, a) E') ->
  covers E E' /\ covers E' E.
Proof.
  intros E E' H. split; split; intros k v Hv; try intros _;
    apply In_neighbours; apply In_neighbours in Hv; now apply H.
Qed.

(** X16.  For the batch variant, inputs that hold the same edges, however
    often and in whichever direction each is written, converge to the
    same pairs in the same number of iterations. *)
Theorem batch_ignores_duplicates : forall E E' : list edge,
  (forall a b, In (a, b) E \/ In (b, a) E <-> In (a, b) E' \/ In (b, a) E') ->
  exists fuel G G' i,
    process fuel E false = Returns (G, i) /\
    process fuel E' false = Returns (G', i) /\
    same_edges G G'.
Proof.
  intros E E' H. destruct (covers_same_neighbours E E' H) as [H1 H2].
  destruct (step_of_run_exists false E 0) as [G [i Hrun]].
  destruct (run_covers false _ _ _ _ Hrun E' 0%nat H1) as [G' [i' [Hrun' [HS Hle]]]].
  destruct (run_covers false _ _ _ _ Hrun' E 0%nat H2) as [G2 [i2 [Hrun2 [_ Hle2]]]].
  destruct (run_deterministic _ _ _ _ _ _ _ Hrun Hrun2) as [_ <-].
  assert (i' = i) by lia. subst i'.
  exists i, G, G', i. split; [|split]; auto.
  - now apply (step_of_run_process false).
  - now apply (step_of_run_process false).
Qed.

Lemma batch_ignores_duplicates_witness :
  exists fuel G G' i,
    process fuel [(1, 2); (1, 2); (2, 1)] false = Returns (G, i) /\
    process fuel [(1, 2)] false = Returns (G', i) /\
    same_edges G G'.
Proof.
  apply (batch_ignores_duplicates [(1, 2); (1, 2); (2, 1)] [(1, 2)]).
  intros a b. simpl. split.
  - intros [[H|[H|[H|[]]]]|[H|[H|[H|[]]]]]; inversion H; subst; auto.
  - intros [[H|[]]|[H|[]]]; inversion H; subst; auto.
Defined.

Lemma rest_sorted_NoDup : forall V,
  NoDup V ->
  Permutation (py_rest (sorted V)) (filter (fun val => negb (val =? lmin V)) V).
Proof.
  intros V Hnd. destruct V as [|v V'].
  - unfold sorted. simpl. constructor.
  - assert (Hne : v :: V' <> []) by discriminate.
    pose proof (rest_sorted_Permutation _ Hne) as HP.
    pose proof (proj1 (NoDup_count_occ Z.eq_dec _) Hnd (lmin (v :: V'))) as Hc.
    destruct (count_occ Z.eq_dec (v :: V') (lmin (v :: V'))) as [|[|c]];
      simpl in HP; auto; lia.
Qed.

(** X17.  When the emitted pairs are all distinct (no pair is repeated,
    none occurs together with its reverse, none is a self-loop), the two
    jobs agree on the iteration: they return the same pairs and the same
    count of new pairs. *)
Theorem variants_coincide_without_repeats : forall E : list edge,
  NoDup (E ++ map (fun x => (snd x, fst x)) E) ->
  exists G G' c,
    CFF_iterate E = Returns (G, c) /\
    CFF_iterate_sorting E = Returns (G', c) /\
    same_edges G G'.
Proof.
  intros E Hnd.
  assert (HN : forall k, NoDup (neighbours E k)).
  { intros k. unfold neighbours. now apply NoDup_values_of. }
  assert (Hrest : forall k a, local_min E k < k ->
            (In a (py_rest (sorted (neighbours E k))) <->
             In a (neighbours E k) /\ a <> local_min E k)).
  { intros k a Hlt. pose proof (rest_sorted_NoDup _ (HN k)) as HP.
    rewrite (local_min_is_lmin E k Hlt) in HP. split.
    - intros Ha. apply (Permutation_in _ HP), filter_In in Ha as [Ha Hne].
      split; auto. now apply negb_true_iff, Z.eqb_neq in Hne.
    - intros [Ha Hne]. apply (Permutation_in _ (Permutation_sym HP)), filter_In.
      split; auto. now apply negb_true_iff, Z.eqb_neq. }
  exists (fst (batch_step E)), (fst (sorting_step E)), (snd (batch_step E)).
  split; [rewrite CFF_iterate_batch; now destruct (batch_step E)|]. split.
  - rewrite CFF_iterate_sorting_sorting.
    assert (Ec : snd (sorting_step E) = snd (batch_step E)).
    { rewrite batch_finish, sorting_finish.
      unfold finish, batch_graph, sorting_graph. simpl.
      rewrite batch_graph_count, sorting_graph_count. f_equal.
      apply map_ext_in. intros [k V] Hin. apply In_adjacency in Hin as [-> _].
      unfold contribution, contribution_sorting. simpl.
      destruct (k >? lmin (neighbours E k)); auto.
      apply Permutation_length, rest_sorted_NoDup, HN. }
    rewrite <- Ec. now destruct (sorting_step E).
  - intros [a b]. rewrite In_batch, In_sorting.
    split; intros [k [Hlt [-> Ha]]]; exists k; repeat split; auto;
      destruct Ha as [->|Ha]; auto; right; now apply (Hrest k a Hlt).
Qed.

Lemma variants_coincide_without_repeats_witness :
  exists G G' c,
    CFF_iterate scenario = Returns (G, c) /\
    CFF_iterate_sorting scenario = Returns (G', c) /\
    same_edges G G'.
Proof.
  apply (variants_coincide_without_repeats scenario).
  exact (NoDup_nodup edge_eq_dec (scenario ++ map (fun x => (snd x, fst x)) scenario)).
Defined.
